(** * Mempool-check: the snapshot differ, the collector's counter and the
      live novelty detector, embedded from the TypeScript sources

    - [src/types.ts]              the data model
    - [src/mempool-compare.ts]    [MempoolComparator.extractAllTransactions],
                                  [MempoolComparator.compareFiles]
    - [src/mempool-collector.ts]  [MempoolCollector.countTransactions]
    - [src/mempool-monitor.ts]    [MempoolMonitor.checkMempool] and the
                                  polling loop of [MempoolMonitor.start]

    A JavaScript object used as a dictionary is modelled by the sequence
    that [Object.entries] returns for it (keys in iteration order), since
    the differ's behaviour depends on that order.  The [Map] and [Set] of
    the sources are stdpp's [gmap] and [gset]: the functions embedded
    here only insert into them and look them up. *)

From stdpp Require Import gmap strings list fin_maps pretty.

Set Warnings "-clear-no-such-hyp".

(** ** Data model ([src/types.ts]) *)

(** The entries of a JavaScript object, in [Object.entries] order. *)
Definition JsObject (V : Type) : Type := list (string * V).

(** A JavaScript object never holds the same key twice. *)
Definition wf_object {V} (o : JsObject V) : Prop := NoDup o.*1.

(** [Object.keys(o)], [Object.values(o)] and the property read [o[k]]. *)
Definition Object_keys {V} (o : JsObject V) : list string := o.*1.
Definition Object_values {V} (o : JsObject V) : list V := o.*2.

Fixpoint Object_get {V} (o : JsObject V) (k : string) : option V :=
  match o with
  | [] => None
  | (k', v) :: o' => if decide (k' = k) then Some v else Object_get o' k
  end.

(** [interface MempoolTransaction]; the optional members are [option]s,
    the members of [accessList] are opaque to every function here. *)
Record MempoolTransaction := {
  tx_hash : string;
  tx_nonce : string;
  tx_from : string;
  tx_to : string;
  tx_value : string;
  tx_gas : string;
  tx_gasPrice : string;
  tx_data : string;
  tx_v : option string;
  tx_r : option string;
  tx_s : option string;
  tx_type : option string;
  tx_accessList : option (list string);
  tx_maxFeePerGas : option string;
  tx_maxPriorityFeePerGas : option string
}.

(** [interface MempoolContent]: address, then nonce, then transaction. *)
Definition MempoolContent : Type := JsObject (JsObject MempoolTransaction).

(** [interface MempoolResult].  Both readers of a decoded result guard the
    two members with [|| {}] or a truthiness test, so a member can be
    absent at run time: [None]. *)
Record MempoolResult := {
  pending : option MempoolContent;
  queued : option MempoolContent
}.

(** The type ['pending' | 'queued']. *)
Inductive PoolType := Pending | Queued.

#[global] Instance PoolType_eq_dec : EqDecision PoolType.
Proof. solve_decision. Defined.

Definition wf_content (c : MempoolContent) : Prop :=
  wf_object c ∧ Forall (λ e, wf_object e.2) c.

Definition wf_result (d : MempoolResult) : Prop :=
  wf_content (default [] (pending d)) ∧ wf_content (default [] (queued d)).

(** ** The comparator ([src/mempool-compare.ts]) *)

Module Comparator.

(** [interface TransactionInfo]. *)
Record TransactionInfo := {
  ti_hash : string;
  ti_from : string;
  ti_to : string;
  ti_value : string;
  ti_gasPrice : string;
  ti_nonce : string;
  ti_poolType : PoolType;
  ti_address : string
}.

#[global] Instance TransactionInfo_eq_dec : EqDecision TransactionInfo.
Proof. solve_decision. Defined.

(** The object literal pushed by both loops of [extractAllTransactions]. *)
Definition mkInfo (poolType : PoolType) (address nonce : string)
    (tx : MempoolTransaction) : TransactionInfo :=
  {| ti_hash := tx_hash tx;
     ti_from := tx_from tx;
     ti_to := tx_to tx;
     ti_value := tx_value tx;
     ti_gasPrice := tx_gasPrice tx;
     ti_nonce := nonce;
     ti_poolType := poolType;
     ti_address := address |}.

(** One of the two nested [for ... of Object.entries(...)] loops: the
    outer loop over the addresses, the inner one over the nonces, each
    iteration pushing one record. *)
Definition extractPool (poolType : PoolType) (content : MempoolContent)
    : list TransactionInfo :=
  '(address, addressData) ← content;
  '(nonce, tx) ← addressData;
  [mkInfo poolType address nonce tx].

(** [extractAllTransactions]: the pending loop, then the queued loop, on
    [mempoolData.pending || {}] and [mempoolData.queued || {}]. *)
Definition extractAllTransactions (mempoolData : MempoolResult)
    : list TransactionInfo :=
  extractPool Pending (default [] (pending mempoolData))
  ++ extractPool Queued (default [] (queued mempoolData)).

(** [new Map(entries)]: the entries are inserted first to last, a later
    entry replacing an earlier one with the same key. *)
Definition Map_new {V} (entries : list (string * V)) : gmap string V :=
  fold_left (λ m e, <[e.1 := e.2]> m) entries ∅.

(** [new Map(transactions.map(tx => [tx.hash, tx]))]. *)
Definition txMap (transactions : list TransactionInfo)
    : gmap string TransactionInfo :=
  Map_new ((λ tx, (ti_hash tx, tx)) <$> transactions).

(** What [loadMempoolFile] returns. *)
Record MempoolFile := {
  data : MempoolResult;
  timestamp : string
}.

(** The four arrays filled by the loop over [firstTransactions]. *)
Record FirstPass := {
  fp_disappeared : list TransactionInfo;
  fp_stillPending : list TransactionInfo;
  fp_movedToQueued : list TransactionInfo;
  fp_movedToPending : list TransactionInfo
}.

Definition emptyPass : FirstPass :=
  {| fp_disappeared := []; fp_stillPending := [];
     fp_movedToQueued := []; fp_movedToPending := [] |}.

(** The body of [for (const tx of firstTransactions)]. *)
Definition classify (secondTxMap : gmap string TransactionInfo)
    (acc : FirstPass) (tx : TransactionInfo) : FirstPass :=
  match secondTxMap !! ti_hash tx with
  | None =>
      {| fp_disappeared := fp_disappeared acc ++ [tx];
         fp_stillPending := fp_stillPending acc;
         fp_movedToQueued := fp_movedToQueued acc;
         fp_movedToPending := fp_movedToPending acc |}
  | Some secondTx =>
      if decide (ti_poolType tx = ti_poolType secondTx) then
        {| fp_disappeared := fp_disappeared acc;
           fp_stillPending := fp_stillPending acc ++ [tx];
           fp_movedToQueued := fp_movedToQueued acc;
           fp_movedToPending := fp_movedToPending acc |}
      else if decide (ti_poolType tx = Pending ∧ ti_poolType secondTx = Queued) then
        {| fp_disappeared := fp_disappeared acc;
           fp_stillPending := fp_stillPending acc;
           fp_movedToQueued := fp_movedToQueued acc ++ [tx];
           fp_movedToPending := fp_movedToPending acc |}
      else if decide (ti_poolType tx = Queued ∧ ti_poolType secondTx = Pending) then
        {| fp_disappeared := fp_disappeared acc;
           fp_stillPending := fp_stillPending acc;
           fp_movedToQueued := fp_movedToQueued acc;
           fp_movedToPending := fp_movedToPending acc ++ [tx] |}
      else acc
  end.

(** The body of [for (const tx of secondTransactions)]. *)
Definition collectNew (firstTxMap : gmap string TransactionInfo)
    (acc : list TransactionInfo) (tx : TransactionInfo) : list TransactionInfo :=
  match firstTxMap !! ti_hash tx with
  | None => acc ++ [tx]
  | Some _ => acc
  end.

(** [ComparisonResult] and its [summary]. *)
Record Summary := {
  totalDisappeared : nat;
  totalNew : nat;
  totalStillPending : nat;
  totalMovedToQueued : nat;
  totalMovedToPending : nat;
  firstFileTime : string;
  secondFileTime : string
}.

Record ComparisonResult := {
  disappearedTransactions : list TransactionInfo;
  newTransactions : list TransactionInfo;
  stillPending : list TransactionInfo;
  movedToQueued : list TransactionInfo;
  movedToPending : list TransactionInfo;
  summary : Summary
}.

(** [compareFiles], from the two loaded files on (reading the files and
    the console output are left out). *)
Definition compareFiles (firstMempool secondMempool : MempoolFile)
    : ComparisonResult :=
  let firstTransactions := extractAllTransactions (data firstMempool) in
  let secondTransactions := extractAllTransactions (data secondMempool) in
  let firstTxMap := txMap firstTransactions in
  let secondTxMap := txMap secondTransactions in
  let pass := fold_left (classify secondTxMap) firstTransactions emptyPass in
  let newTransactions := fold_left (collectNew firstTxMap) secondTransactions [] in
  {| disappearedTransactions := fp_disappeared pass;
     newTransactions := newTransactions;
     stillPending := fp_stillPending pass;
     movedToQueued := fp_movedToQueued pass;
     movedToPending := fp_movedToPending pass;
     summary :=
       {| totalDisappeared := length (fp_disappeared pass);
          totalNew := length newTransactions;
          totalStillPending := length (fp_stillPending pass);
          totalMovedToQueued := length (fp_movedToQueued pass);
          totalMovedToPending := length (fp_movedToPending pass);
          firstFileTime := timestamp firstMempool;
          secondFileTime := timestamp secondMempool |} |}.

(** The set of hashes carried by a sequence of records. *)
Definition hashes (l : list TransactionInfo) : gset string :=
  list_to_set (ti_hash <$> l).

(** The location of a record inside its snapshot. *)
Definition location (tx : TransactionInfo) : PoolType * string * string :=
  (ti_poolType tx, ti_address tx, ti_nonce tx).

(** The [(address, nonce)] pairs present in one sub-pool, in order. *)
Definition poolKeys (poolType : PoolType) (content : MempoolContent)
    : list (PoolType * string * string) :=
  '(address, addressData) ← content;
  (λ nonce, (poolType, address, nonce)) <$> Object_keys addressData.

(** The transactions stored in one sub-pool, in order. *)
Definition poolValues (content : MempoolContent) : list MempoolTransaction :=
  addressData ← Object_values content; Object_values addressData.

End Comparator.

(** ** The collector's counter ([src/mempool-collector.ts]) *)

Module Collector.

(** The object returned by [countTransactions]. *)
Record TxCounts := {
  pendingTransactions : nat;
  queuedTransactions : nat
}.

(** One [for (const addressData of Object.values(...))] loop, adding
    [Object.keys(addressData).length] to the running count. *)
Definition countPool (content : MempoolContent) : nat :=
  fold_left (λ count addressData, count + length (Object_keys addressData))
            (Object_values content) 0.

(** [countTransactions]. *)
Definition countTransactions (mempoolData : MempoolResult) : TxCounts :=
  {| pendingTransactions := countPool (default [] (pending mempoolData));
     queuedTransactions := countPool (default [] (queued mempoolData)) |}.

End Collector.

(** ** The live monitor ([src/mempool-monitor.ts]) *)

Module Monitor.

(** A [Date], as its number of milliseconds since the epoch. *)
Definition Date : Type := Z.

(** [interface TransactionWithMetadata]: the members spread from the
    pool's transaction ([tx_nonce] replaced by the object key), the pool
    and the instant of extraction. *)
Record TransactionWithMetadata := {
  base : MempoolTransaction;
  poolType : PoolType;
  firstSeen : Date
}.

Definition hash (tx : TransactionWithMetadata) : string := tx_hash (base tx).

Definition withNonce (tx : MempoolTransaction) (nonce : string)
    : MempoolTransaction :=
  {| tx_hash := tx_hash tx; tx_nonce := nonce; tx_from := tx_from tx;
     tx_to := tx_to tx; tx_value := tx_value tx; tx_gas := tx_gas tx;
     tx_gasPrice := tx_gasPrice tx; tx_data := tx_data tx;
     tx_v := tx_v tx; tx_r := tx_r tx; tx_s := tx_s tx;
     tx_type := tx_type tx; tx_accessList := tx_accessList tx;
     tx_maxFeePerGas := tx_maxFeePerGas tx;
     tx_maxPriorityFeePerGas := tx_maxPriorityFeePerGas tx |}.

(** The two private members a cycle mutates: the [Set] of seen hashes and
    the [Map] from hash to first-seen instant. *)
Record MonitorState := {
  seenTransactions : gset string;
  firstSeenTimes : gmap string Date
}.

(** [new Set()] and [new Map()]. *)
Definition initialState : MonitorState :=
  {| seenTransactions := ∅; firstSeenTimes := ∅ |}.

(** What the outside world gives to one poll cycle: the outcome of
    [makeApiRequest] ([None] for [null]) and the wall clock, [clock k]
    being the value of the [k]-th [new Date()] evaluated in the cycle. *)
Record Cycle := {
  fetched : option MempoolResult;
  clock : nat → Date
}.

(** [extractTransactionsFromAddress], from clock reading number [tick]
    on; returns the array and the number of the next reading. *)
Definition extractTransactionsFromAddress (clock : nat → Date) (tick : nat)
    (addressData : JsObject MempoolTransaction) (poolType : PoolType)
    : list TransactionWithMetadata * nat :=
  fold_left
    (λ (acc : list TransactionWithMetadata * nat)
       (entry : string * MempoolTransaction),
       (acc.1 ++ [ {| base := withNonce entry.2 entry.1;
                      poolType := poolType;
                      firstSeen := clock acc.2 |} ],
        S acc.2))
    addressData ([], tick).

(** The variables live inside one run of [checkMempool]. *)
Record Scan := {
  state : MonitorState;
  tick : nat;
  allWalletTransactions : list TransactionWithMetadata;
  newTransactions : list TransactionWithMetadata
}.

(** The body of [for (const tx of addressTransactions)]. *)
Definition visit (clock : nat → Date) (s : Scan) (tx : TransactionWithMetadata)
    : Scan :=
  if decide (hash tx ∈ seenTransactions (state s)) then
    {| state := state s;
       tick := tick s;
       allWalletTransactions := allWalletTransactions s ++ [tx];
       newTransactions := newTransactions s |}
  else
    {| state :=
         {| seenTransactions := {[hash tx]} ∪ seenTransactions (state s);
            firstSeenTimes :=
              <[hash tx := clock (tick s)]> (firstSeenTimes (state s)) |};
       tick := S (tick s);
       allWalletTransactions := allWalletTransactions s ++ [tx];
       newTransactions := newTransactions s ++ [tx] |}.

(** [mempoolData[poolType]]. *)
Definition poolOf (mempoolData : MempoolResult) (poolType : PoolType)
    : option MempoolContent :=
  match poolType with
  | Pending => pending mempoolData
  | Queued => queued mempoolData
  end.

(** The body of [for (const poolType of ['pending', 'queued'])]. *)
Definition scanPool (walletAddress : string) (clock : nat → Date)
    (mempoolData : MempoolResult) (s : Scan) (poolType : PoolType) : Scan :=
  match poolOf mempoolData poolType with
  | None => s
  | Some poolData =>
      match Object_get poolData walletAddress with
      | None => s
      | Some addressData =>
          let '(addressTransactions, tick') :=
            extractTransactionsFromAddress clock (tick s) addressData poolType in
          fold_left (visit clock) addressTransactions
            {| state := state s;
               tick := tick';
               allWalletTransactions := allWalletTransactions s;
               newTransactions := newTransactions s |}
      end
  end.

(** The object returned by [checkMempool]. *)
Record CheckResult := {
  cr_newTransactions : list TransactionWithMetadata;
  cr_allWalletTransactions : list TransactionWithMetadata
}.

(** [checkMempool]: one poll cycle, as a function from the state before
    to the result and the state after. *)
Definition checkMempool (walletAddress : string) (c : Cycle)
    (st : MonitorState) : CheckResult * MonitorState :=
  match fetched c with
  | None =>
      ({| cr_newTransactions := []; cr_allWalletTransactions := [] |}, st)
  | Some mempoolData =>
      let s :=
        fold_left (scanPool walletAddress (clock c) mempoolData)
          [Pending; Queued]
          {| state := st; tick := 0;
             allWalletTransactions := []; newTransactions := [] |} in
      ({| cr_newTransactions := newTransactions s;
          cr_allWalletTransactions := allWalletTransactions s |},
       state s)
  end.

(** The [while (this.isRunning)] loop of [start], for the cycles that
    take place before the run is stopped: the results of the cycles, in
    order, and the final state. *)
Fixpoint run (walletAddress : string) (cycles : list Cycle)
    (st : MonitorState) : list CheckResult * MonitorState :=
  match cycles with
  | [] => ([], st)
  | c :: cycles' =>
      let '(r, st') := checkMempool walletAddress c st in
      let '(rs, st'') := run walletAddress cycles' st' in
      (r :: rs, st'')
  end.

(** The hashes reported as new by one cycle. *)
Definition newHashes (r : CheckResult) : list string :=
  hash <$> cr_newTransactions r.

End Monitor.

(** ** Properties under study, and concrete snapshots *)

Module Claims.
Import Comparator.

(** The pool type recorded for a record's hash in the lookup built from
    the other snapshot, if any. *)
Definition otherPool (m : gmap string TransactionInfo) (tx : TransactionInfo)
    : option PoolType :=
  ti_poolType <$> m !! ti_hash tx.

(** No hash of the snapshot occurs both in its pending and in its queued
    sub-pool. *)
Definition pool_consistent (d : MempoolResult) : Prop :=
  hashes (extractPool Pending (default [] (pending d)))
  ## hashes (extractPool Queued (default [] (queued d))).

(** No hash occurs twice in the snapshot. *)
Definition hash_unique (d : MempoolResult) : Prop :=
  NoDup (ti_hash <$> extractAllTransactions d).

(** The five categories, as hash sets, are pairwise disjoint. *)
Definition pairwise_disjoint (r : ComparisonResult) : Prop :=
  let D := hashes (disappearedTransactions r) in
  let N := hashes (newTransactions r) in
  let S := hashes (stillPending r) in
  let Q := hashes (movedToQueued r) in
  let P := hashes (movedToPending r) in
  D ## N ∧ D ## S ∧ D ## Q ∧ D ## P ∧ N ## S ∧ N ## Q ∧ N ## P
  ∧ S ## Q ∧ S ## P ∧ Q ## P.

(** The three identities between the categories and the two snapshots. *)
Definition union_identities (first second : MempoolResult)
    (r : ComparisonResult) : Prop :=
  let F := hashes (extractAllTransactions first) in
  let G := hashes (extractAllTransactions second) in
  let D := hashes (disappearedTransactions r) in
  let N := hashes (newTransactions r) in
  let S := hashes (stillPending r) in
  let Q := hashes (movedToQueued r) in
  let P := hashes (movedToPending r) in
  D ∪ N ∪ S ∪ Q ∪ P = F ∪ G
  ∧ S ∪ Q ∪ P ∪ D = F
  ∧ N ∪ (F ∩ G) = G.

(** The partition property of the differ. *)
Definition partition_property (first second : MempoolFile) : Prop :=
  pairwise_disjoint (compareFiles first second)
  ∧ union_identities (data first) (data second) (compareFiles first second).

(** Every disjointness of [pairwise_disjoint] except the two between
    [stillPending] and the two moved categories. *)
Definition disjoint_by_hash (r : ComparisonResult) : Prop :=
  let D := hashes (disappearedTransactions r) in
  let N := hashes (newTransactions r) in
  let S := hashes (stillPending r) in
  let Q := hashes (movedToQueued r) in
  let P := hashes (movedToPending r) in
  D ## N ∧ D ## S ∧ D ## Q ∧ D ## P ∧ N ## S ∧ N ## Q ∧ N ## P ∧ Q ## P.

(** The five arrays of a result, one after the other. *)
Definition all_categories (r : ComparisonResult) : list TransactionInfo :=
  disappearedTransactions r ++ newTransactions r ++ stillPending r
  ++ movedToQueued r ++ movedToPending r.

(** The reversal property of the differ under a swap of its inputs. *)
Definition swap_property (a b : MempoolFile) : Prop :=
  let r := compareFiles a b in
  let r' := compareFiles b a in
  hashes (disappearedTransactions r) = hashes (newTransactions r')
  ∧ hashes (movedToQueued r) = hashes (movedToPending r')
  ∧ hashes (movedToPending r) = hashes (movedToQueued r')
  ∧ hashes (stillPending r) = hashes (stillPending r').

(** A record of the extracted sequence sits at its own location in the
    snapshot: under its own address, at its own nonce, in its own pool. *)
Definition located (d : MempoolResult) (tx : TransactionInfo) : Prop :=
  ∃ addressData t,
    (ti_address tx, addressData)
      ∈ default [] (match ti_poolType tx with
                    | Pending => pending d
                    | Queued => queued d
                    end)
    ∧ (ti_nonce tx, t) ∈ addressData
    ∧ tx = mkInfo (ti_poolType tx) (ti_address tx) (ti_nonce tx) t.

(** The pool type that the lookup built from a sequence records for a
    hash, and the pool types under which the sequence holds the hash. *)
Definition poolIn (l : list TransactionInfo) (h : string) : option PoolType :=
  ti_poolType <$> txMap l !! h.

(** The pool type of the last record of a sequence that carries a hash. *)
Definition lastPool (l : list TransactionInfo) (h : string) : option PoolType :=
  ti_poolType <$> last (filter (λ tx, ti_hash tx = h) l).

Definition inPool (l : list TransactionInfo) (h : string) (p : PoolType)
    : Prop :=
  ∃ tx, tx ∈ l ∧ ti_hash tx = h ∧ ti_poolType tx = p.

(** A transaction with the given hash, sender and nonce. *)
Definition sampleTx (h sender n : string) : MempoolTransaction :=
  {| tx_hash := h; tx_nonce := n; tx_from := sender; tx_to := "0x2";
     tx_value := "0x0"; tx_gas := "0x5208"; tx_gasPrice := "0x3b9aca00";
     tx_data := "0x"; tx_v := None; tx_r := None; tx_s := None;
     tx_type := None; tx_accessList := None;
     tx_maxFeePerGas := None; tx_maxPriorityFeePerGas := None |}.

Definition fileOf (p q : option MempoolContent) (time : string) : MempoolFile :=
  {| data := {| pending := p; queued := q |}; timestamp := time |}.

(** Hash [0xaa] under nonce 5 in pending and under nonce 6 in queued. *)
Definition bothPools : MempoolFile :=
  fileOf (Some [("0x1", [("5", sampleTx "0xaa" "0x1" "5")])])
         (Some [("0x1", [("6", sampleTx "0xaa" "0x1" "6")])])
         "2024-01-15T14:30:25.123Z".

(** Hash [0xaa] in pending only, in queued only, and nowhere. *)
Definition onlyPending : MempoolFile :=
  fileOf (Some [("0x1", [("5", sampleTx "0xaa" "0x1" "5")])]) (Some [])
         "2024-01-15T14:30:30.123Z".

Definition onlyQueued : MempoolFile :=
  fileOf None (Some [("0x1", [("5", sampleTx "0xaa" "0x1" "5")])])
         "2024-01-15T14:30:35.123Z".

Definition emptyPool : MempoolFile :=
  fileOf (Some []) None "2024-01-15T14:30:40.123Z".

End Claims.

(** ** Properties of the monitor's state, and a concrete run *)

Module Tracking.
Import Monitor.

(** The state invariant: the seen set is the key set of the first-seen
    map. *)
Definition consistent (st : MonitorState) : Prop :=
  ∀ h, h ∈ seenTransactions st ↔ is_Some (firstSeenTimes st !! h).

(** [st'] comes from [st] by marking the hashes [added], one after the
    other, as seen for the first time. *)
Definition grows (st st' : MonitorState) (added : list string) : Prop :=
  NoDup added
  ∧ (∀ h, h ∈ added → h ∉ seenTransactions st)
  ∧ seenTransactions st' = seenTransactions st ∪ list_to_set added
  ∧ (consistent st → consistent st')
  ∧ (∀ h, h ∈ seenTransactions st →
          firstSeenTimes st' !! h = firstSeenTimes st !! h).

(** The state after the first [n] cycles of a run. *)
Definition stateAfter (walletAddress : string) (cycles : list Cycle) (n : nat)
    : MonitorState :=
  (run walletAddress (take n cycles) initialState).2.

(** A wall clock that advances by one millisecond per reading. *)
Definition clockFrom (t : Z) : nat → Date := λ k, (t + Z.of_nat k)%Z.

Definition wallet : string := "0x1".

(** A successful cycle in which the wallet holds the given transactions
    (nonce and hash) in the pending and in the queued sub-pool. *)
Definition sees (p q : list (string * string)) (t : Z) : Cycle :=
  {| fetched :=
       Some {| pending :=
                 Some [(wallet, (λ e, (e.1, Claims.sampleTx e.2 wallet e.1)) <$> p)];
               queued :=
                 Some [(wallet, (λ e, (e.1, Claims.sampleTx e.2 wallet e.1)) <$> q)] |};
     clock := clockFrom t |}.

(** A cycle whose fetch fails. *)
Definition fails (t : Z) : Cycle :=
  {| fetched := None; clock := clockFrom t |}.

(** A run of two cycles: hashes [0x1] and [0x2] pending, then [0x2]
    moved to queued while [0x3] is pending. *)
Definition twoCycles : list Cycle :=
  [ sees [("1", "0x1"); ("2", "0x2")] [] 1000;
    sees [("3", "0x3")] [("2", "0x2")] 2000 ].

(** A run of four cycles whose third fetch fails and whose fourth cycle
    sees the fresh hash [0x4]. *)
Definition fourCycles : list Cycle :=
  [ sees [("1", "0x1"); ("2", "0x2")] [] 1000;
    sees [("2", "0x2"); ("3", "0x3")] [] 2000;
    fails 3000;
    sees [("2", "0x2"); ("3", "0x3"); ("4", "0x4")] [] 4000 ].

(** The results of a run of the sample wallet's monitor. *)
Definition resultsOf (cycles : list Cycle) : list CheckResult :=
  (run wallet cycles initialState).1.

End Tracking.

(** ** What one poll cycle observes *)

Module Observation.
Import Monitor.

(** The entries that [checkMempool] walks for one pool: those stored
    under the wallet's key, none when the pool or the key is absent. *)
Definition walletEntries (walletAddress : string) (mempoolData : MempoolResult)
    (p : PoolType) : JsObject MempoolTransaction :=
  default [] (poolOf mempoolData p ≫= λ poolData, Object_get poolData walletAddress).

(** The scan [s'] comes from the scan [s] by visiting the transactions
    [txs] in order. *)
Definition observes (s s' : Scan) (txs : list TransactionWithMetadata) : Prop :=
  allWalletTransactions s' = allWalletTransactions s ++ txs
  ∧ seenTransactions (state s')
    = seenTransactions (state s) ∪ list_to_set (hash <$> txs)
  ∧ tick s ≤ tick s'
  ∧ ∃ new,
      newTransactions s' = newTransactions s ++ new
      ∧ new `sublist_of` txs
      ∧ ∀ h, h ∈ hash <$> new
             ↔ h ∈ hash <$> txs ∧ h ∉ seenTransactions (state s).

(** The extraction instant of a transaction is a clock reading made
    before reading number [n]. *)
Definition stampedBefore (clk : nat → Date) (n : nat)
    (tx : TransactionWithMetadata) : Prop :=
  ∃ i, i < n ∧ firstSeen tx = clk i.

(** The state holds, for the transaction's hash, a clock reading made
    after the one that stamped the transaction. *)
Definition recorded (clk : nat → Date) (st : MonitorState)
    (tx : TransactionWithMetadata) : Prop :=
  ∃ i k, i < k ∧ firstSeen tx = clk i
         ∧ firstSeenTimes st !! hash tx = Some (clk k).

(** The transactions reported as new so far are recorded and seen. *)
Definition timed (clk : nat → Date) (s : Scan) : Prop :=
  Forall (λ tx, recorded clk (state s) tx ∧ hash tx ∈ seenTransactions (state s))
         (newTransactions s).

(** A cycle that fetched a snapshot without a pending sub-pool, holding
    one queued transaction of the sample wallet. *)
Definition queuedOnlyCycle : Cycle :=
  {| fetched := Some (Comparator.data Claims.onlyQueued);
     clock := Tracking.clockFrom 1000 |}.

End Observation.

(** ** The monitor's elapsed-time display ([getDuration]) *)

Module Elapsed.

(** The three shapes of the text returned by [getDuration]. *)
Inductive Shown :=
  | HoursMinutesSeconds (h m s : Z)
  | MinutesSeconds (m s : Z)
  | SecondsOnly (s : Z).

(** The numbers [getDuration] puts in its text, from the difference
    [Date.now() - this.startTime.getTime()] in milliseconds.
    [Math.floor (x / k)] is [x / k] on [Z], the operator [%] is
    [Z.rem]. *)
Definition parts (duration : Z) : Shown :=
  let seconds := (duration / 1000)%Z in
  let minutes := (seconds / 60)%Z in
  let hours := (minutes / 60)%Z in
  if decide (0 < hours)%Z then
    HoursMinutesSeconds hours (Z.rem minutes 60) (Z.rem seconds 60)
  else if decide (0 < minutes)%Z then
    MinutesSeconds minutes (Z.rem seconds 60)
  else SecondsOnly seconds.

(** The three template literals. *)
Definition render (p : Shown) : string :=
  match p with
  | HoursMinutesSeconds h m s =>
      pretty h +:+ "h " +:+ pretty m +:+ "m " +:+ pretty s +:+ "s"
  | MinutesSeconds m s => pretty m +:+ "m " +:+ pretty s +:+ "s"
  | SecondsOnly s => pretty s +:+ "s"
  end.

(** [getDuration], from the two clock values it reads. *)
Definition getDuration (now startTime : Z) : string :=
  render (parts (now - startTime)).

(** The number of seconds that a shown duration stands for. *)
Definition totalSeconds (p : Shown) : Z :=
  match p with
  | HoursMinutesSeconds h m s => (h * 3600 + m * 60 + s)%Z
  | MinutesSeconds m s => (m * 60 + s)%Z
  | SecondsOnly s => s
  end.

End Elapsed.

(** ** The monitor's reaction to new transactions (the version of the
       monitor that sends a competing transaction) *)

Module Sender.
Import Monitor.







Section WithLibraries.

(** [String.prototype.toLowerCase], and [ethers.parseEther], which
    throws on a text that is no decimal number ([None]). *)
Variable toLowerCase : string → string.
Variable parseEther : string → option Z.





End WithLibraries.


End Sender.

(** ** The comparator's command line ([parseArgs] and [main] of
       [src/mempool-compare.ts]) *)

Module CompareCli.
Import Comparator.

(** The object returned by [parseArgs]; a member assigned from
    [args[++i]] past the end of the arguments is [undefined]: [None]. *)
Record Args := {
  firstFile : option string;
  secondFile : option string;
  resultDir : option string;
  outputFile : option string;
  listFiles : bool
}.

(** The initial values of the five variables. *)
Definition initialArgs : Args :=
  {| firstFile := None; secondFile := None; resultDir := Some "./result";
     outputFile := None; listFiles := false |}.

Definition isFlag (arg long short : string) : bool :=
  bool_decide (arg = long ∨ arg = short).

(** The [for] loop of [parseArgs] from the current argument on; [None]
    when [--help] shows the help text and exits. *)
Fixpoint parseLoop (args : list string) (acc : Args) : option Args :=
  match args with
  | [] => Some acc
  | arg :: rest =>
      if isFlag arg "--first" "-f" then
        match rest with
        | [] => Some {| firstFile := None; secondFile := secondFile acc;
                        resultDir := resultDir acc;
                        outputFile := outputFile acc;
                        listFiles := listFiles acc |}
        | v :: rest' =>
            parseLoop rest' {| firstFile := Some v;
                               secondFile := secondFile acc;
                               resultDir := resultDir acc;
                               outputFile := outputFile acc;
                               listFiles := listFiles acc |}
        end
      else if isFlag arg "--second" "-s" then
        match rest with
        | [] => Some {| firstFile := firstFile acc; secondFile := None;
                        resultDir := resultDir acc;
                        outputFile := outputFile acc;
                        listFiles := listFiles acc |}
        | v :: rest' =>
            parseLoop rest' {| firstFile := firstFile acc;
                               secondFile := Some v;
                               resultDir := resultDir acc;
                               outputFile := outputFile acc;
                               listFiles := listFiles acc |}
        end
      else if isFlag arg "--result-dir" "-r" then
        match rest with
        | [] => Some {| firstFile := firstFile acc;
                        secondFile := secondFile acc; resultDir := None;
                        outputFile := outputFile acc;
                        listFiles := listFiles acc |}
        | v :: rest' =>
            parseLoop rest' {| firstFile := firstFile acc;
                               secondFile := secondFile acc;
                               resultDir := Some v;
                               outputFile := outputFile acc;
                               listFiles := listFiles acc |}
        end
      else if isFlag arg "--output" "-o" then
        match rest with
        | [] => Some {| firstFile := firstFile acc;
                        secondFile := secondFile acc;
                        resultDir := resultDir acc; outputFile := None;
                        listFiles := listFiles acc |}
        | v :: rest' =>
            parseLoop rest' {| firstFile := firstFile acc;
                               secondFile := secondFile acc;
                               resultDir := resultDir acc;
                               outputFile := Some v;
                               listFiles := listFiles acc |}
        end
      else if isFlag arg "--list" "-l" then
        parseLoop rest {| firstFile := firstFile acc;
                          secondFile := secondFile acc;
                          resultDir := resultDir acc;
                          outputFile := outputFile acc;
                          listFiles := true |}
      else if isFlag arg "--help" "-h" then None
      else parseLoop rest acc
  end.

(** [parseArgs], on [process.argv.slice(2)]. *)
Definition parseArgs (args : list string) : option Args :=
  parseLoop args initialArgs.

(** The ways [main] ends. *)
Inductive Outcome :=
  | HelpShown
  | FilesListed (resultDir : string)
  | FilesRequired
  | FirstNotFound (firstFile : string)
  | SecondNotFound (secondFile : string)
  | FatalError
  | Compared (result : ComparisonResult) (savedTo : option string).

(** [main], up to the call of [displayResults].  [existsSync] is
    [fs.existsSync]; [load] is [loadMempoolFile], [None] when it throws.
    A falsy file name is an absent or an empty one; [listMempoolFiles]
    takes its default directory when it is given [undefined].  In
    [Compared result savedTo] the comparison has been computed, and
    [savedTo] is the file that [saveResults] is then asked to write. *)
Definition main (existsSync : string → bool)
    (load : string → option MempoolFile) (args : list string) : Outcome :=
  match parseArgs args with
  | None => HelpShown
  | Some a =>
      if listFiles a then FilesListed (default "./result" (resultDir a))
      else
        match firstFile a, secondFile a with
        | Some first, Some second =>
            if bool_decide (first = "" ∨ second = "") then FilesRequired
            else if negb (existsSync first) then FirstNotFound first
            else if negb (existsSync second) then SecondNotFound second
            else
              match load first, load second with
              | Some firstMempool, Some secondMempool =>
                  Compared (compareFiles firstMempool secondMempool)
                           (match outputFile a with
                            | Some o => if bool_decide (o = "") then None
                                        else Some o
                            | None => None
                            end)
              | _, _ => FatalError
              end
        | _, _ => FilesRequired
        end
  end.

(** The arguments that the [switch] of [parseArgs] has a case for. *)
Definition flags : list string :=
  ["--first"; "-f"; "--second"; "-s"; "--result-dir"; "-r";
   "--output"; "-o"; "--list"; "-l"; "--help"; "-h"].

(** The values of the parsed object all come from the given texts: the
    file names and directories are among them (the directory may also be
    the default one), and listing is on only if its flag is among
    them. *)
Definition takenFrom (pool : list string) (a : Args) : Prop :=
  (∀ f, firstFile a = Some f → f ∈ pool)
  ∧ (∀ f, secondFile a = Some f → f ∈ pool)
  ∧ (∀ d, resultDir a = Some d → d = "./result" ∨ d ∈ pool)
  ∧ (∀ o, outputFile a = Some o → o ∈ pool)
  ∧ (listFiles a = true → "--list" ∈ pool ∨ "-l" ∈ pool).

(** A directory holding two captures, and a command line naming them. *)
Definition sampleLoad (file : string) : option MempoolFile :=
  if decide (file = "a.json") then Some Claims.onlyPending
  else if decide (file = "b.json") then Some Claims.onlyQueued
  else None.

Definition sampleExists (file : string) : bool :=
  bool_decide (file = "a.json" ∨ file = "b.json").

Definition sampleArgs : list string :=
  ["--first"; "a.json"; "-s"; "b.json"; "--output"; "diff.json"].

End CompareCli.

(** ** The collector's file ([collectAndSave]) and the two listings *)

Module CollectorFile.
Import Stdlib.Strings.Ascii.

(** The [summary] member of [interface MempoolDataFile]. *)
Record FileSummary := {
  pendingAddresses : nat;
  queuedAddresses : nat;
  totalAddresses : nat;
  pendingTransactions : nat;
  queuedTransactions : nat;
  totalTransactions : nat
}.

Record Metadata := {
  md_apiUrl : string;
  collectionTime : string;
  version : string
}.

(** [interface MempoolDataFile], without the optional block number,
    which [collectAndSave] never sets. *)
Record MempoolDataFile := {
  timestamp : string;
  mempoolData : MempoolResult;
  summary : FileSummary;
  metadata : Metadata
}.

(** The summary built by [collectAndSave]. *)
Definition summarize (mempoolData : MempoolResult) : FileSummary :=
  let txCounts := Collector.countTransactions mempoolData in
  {| pendingAddresses := length (Object_keys (default [] (pending mempoolData)));
     queuedAddresses := length (Object_keys (default [] (queued mempoolData)));
     totalAddresses :=
       length (Object_keys (default [] (pending mempoolData)))
       + length (Object_keys (default [] (queued mempoolData)));
     pendingTransactions := Collector.pendingTransactions txCounts;
     queuedTransactions := Collector.queuedTransactions txCounts;
     totalTransactions :=
       Collector.pendingTransactions txCounts
       + Collector.queuedTransactions txCounts |}.

(** [s.replace(/[:.]/g, '-')]. *)
Fixpoint replaceColonDot (s : string) : string :=
  match s with
  | EmptyString => EmptyString
  | String c s' =>
      String (if decide (c = ":"%char ∨ c = "."%char) then "-"%char else c)
             (replaceColonDot s')
  end.

(** The file name built from [timestamp.toISOString()]. *)
Definition fileName (iso : string) : string :=
  "mempool-" +:+ replaceColonDot iso +:+ ".json".

(** [collectAndSave], up to the write: the file name and the content, or
    [None] when the fetch failed and nothing is written.  [iso] is
    [timestamp.toISOString()]. *)
Definition collectAndSave (apiUrl : string) (fetched : option MempoolResult)
    (iso : string) : option (string * MempoolDataFile) :=
  match fetched with
  | None => None
  | Some mempoolData =>
      Some (fileName iso,
            {| timestamp := iso;
               mempoolData := mempoolData;
               summary := summarize mempoolData;
               metadata := {| md_apiUrl := apiUrl; collectionTime := iso;
                              version := "1.0.0" |} |})
  end.

(** [s.startsWith(p)] and [s.endsWith(p)]. *)
Definition startsWith (s p : string) : bool := String.prefix p s.

Definition endsWith (s p : string) : bool :=
  (String.length p <=? String.length s)
  && String.eqb (String.substring (String.length s - String.length p)
                                  (String.length p) s) p.

(** The filter of the comparator's [listMempoolFiles] and the one of the
    collector's [listCollectedFiles]. *)
Definition isMempoolFile (file : string) : bool :=
  startsWith file "mempool-" && endsWith file ".json".

Definition isCollectedFile (file : string) : bool := endsWith file ".json".

(** The characters of a text. *)
Definition chars (s : string) : list ascii := String.list_ascii_of_string s.

End CollectorFile.

(** ** Facts about the comparator *)

Section ComparatorFacts.
Import Comparator Claims.

Implicit Types (l : list TransactionInfo) (tx : TransactionInfo).
Implicit Types (m : gmap string TransactionInfo) (h : string).

Lemma Map_new_snoc {V} (es : list (string * V)) (e : string * V) :
  Map_new (es ++ [e]) = <[e.1 := e.2]> (Map_new es).
Proof. unfold Map_new. by rewrite fold_left_app. Qed.

Lemma txMap_snoc l tx : txMap (l ++ [tx]) = <[ti_hash tx := tx]> (txMap l).
Proof. unfold txMap. rewrite fmap_app. apply Map_new_snoc. Qed.

Lemma txMap_lookup_last l h :
  txMap l !! h = last (filter (λ tx, ti_hash tx = h) l).
Proof.
  induction l as [|tx l IH] using rev_ind; [done|].
  rewrite txMap_snoc, filter_app, lookup_insert.
  case_decide as Hh.
  - rewrite filter_cons_True by done. by rewrite filter_nil, last_snoc.
  - rewrite filter_cons_False by done. by rewrite filter_nil, app_nil_r.
Qed.

Lemma txMap_lookup_Some l h tx :
  txMap l !! h = Some tx → tx ∈ l ∧ ti_hash tx = h.
Proof.
  rewrite txMap_lookup_last. intros Hlast.
  apply last_Some_elem_of, list_elem_of_filter in Hlast. tauto.
Qed.

Lemma elem_of_hashes l h : h ∈ hashes l ↔ ∃ tx, tx ∈ l ∧ ti_hash tx = h.
Proof.
  unfold hashes. rewrite elem_of_list_to_set, list_elem_of_fmap.
  split; intros (tx & ? & ?); exists tx; done.
Qed.

Lemma txMap_lookup_is_Some l h : is_Some (txMap l !! h) ↔ h ∈ hashes l.
Proof.
  rewrite elem_of_hashes. split.
  - intros [tx Htx]. exists tx. by apply txMap_lookup_Some.
  - intros (tx & Hin & <-). rewrite txMap_lookup_last.
    destruct (filter _ l) as [|t f] eqn:Hf using rev_ind.
    + assert (tx ∈ filter (λ tx0, ti_hash tx0 = ti_hash tx) l) as Hmem
        by (by apply list_elem_of_filter).
      rewrite Hf in Hmem. by apply elem_of_nil in Hmem.
    + rewrite last_snoc. eauto.
Qed.

Lemma txMap_lookup_None l h : txMap l !! h = None ↔ h ∉ hashes l.
Proof. rewrite <- txMap_lookup_is_Some, eq_None_not_Some. done. Qed.


(** One iteration of the loop over [firstTransactions] appends the
    record to the one array whose test it passes. *)
Lemma classify_step m (acc : FirstPass) tx :
  classify m acc tx =
  {| fp_disappeared :=
       fp_disappeared acc ++ filter (λ tx, otherPool m tx = None) [tx];
     fp_stillPending :=
       fp_stillPending acc
       ++ filter (λ tx, otherPool m tx = Some (ti_poolType tx)) [tx];
     fp_movedToQueued :=
       fp_movedToQueued acc
       ++ filter (λ tx, ti_poolType tx = Pending ∧ otherPool m tx = Some Queued) [tx];
     fp_movedToPending :=
       fp_movedToPending acc
       ++ filter (λ tx, ti_poolType tx = Queued ∧ otherPool m tx = Some Pending) [tx] |}.
Proof.
  unfold classify, otherPool, filter; simpl.
  destruct (m !! ti_hash tx) as [tx2|]; simpl.
  - destruct (ti_poolType tx), (ti_poolType tx2), acc; simpl;
      repeat (case_decide; simpl; try (exfalso; intuition congruence));
      by rewrite ?app_nil_r.
  - destruct acc; simpl.
    repeat (case_decide; simpl; try (exfalso; intuition congruence)).
    by rewrite ?app_nil_r.
Qed.

(** The loop over [firstTransactions] is four filters of that array. *)
Lemma classify_fold m l (acc : FirstPass) :
  fold_left (classify m) l acc =
  {| fp_disappeared :=
       fp_disappeared acc ++ filter (λ tx, otherPool m tx = None) l;
     fp_stillPending :=
       fp_stillPending acc
       ++ filter (λ tx, otherPool m tx = Some (ti_poolType tx)) l;
     fp_movedToQueued :=
       fp_movedToQueued acc
       ++ filter (λ tx, ti_poolType tx = Pending ∧ otherPool m tx = Some Queued) l;
     fp_movedToPending :=
       fp_movedToPending acc
       ++ filter (λ tx, ti_poolType tx = Queued ∧ otherPool m tx = Some Pending) l |}.
Proof.
  revert acc. induction l as [|tx l IH]; intros acc; simpl.
  - destruct acc; simpl. by rewrite !app_nil_r.
  - rewrite IH, classify_step; simpl.
    rewrite <- !app_assoc. by rewrite <- !(filter_app _ [tx] l).
Qed.

(** The loop over [secondTransactions] is one filter of that array. *)
Lemma collectNew_fold m l (acc : list TransactionInfo) :
  fold_left (collectNew m) l acc
  = acc ++ filter (λ tx, m !! ti_hash tx = None) l.
Proof.
  revert acc. induction l as [|tx l IH]; intros acc; simpl.
  - by rewrite app_nil_r.
  - rewrite IH. unfold collectNew.
    destruct (m !! ti_hash tx) eqn:Hm.
    + by rewrite filter_cons_False by (by rewrite Hm).
    + rewrite filter_cons_True by done. by rewrite <- app_assoc.
Qed.

(** The five arrays of [compareFiles], as filters of the two extracted
    sequences. *)
Lemma compareFiles_filters (a b : MempoolFile) :
  let first := extractAllTransactions (data a) in
  let second := extractAllTransactions (data b) in
  let r := compareFiles a b in
  disappearedTransactions r
    = filter (λ tx, otherPool (txMap second) tx = None) first
  ∧ stillPending r
    = filter (λ tx, otherPool (txMap second) tx = Some (ti_poolType tx)) first
  ∧ movedToQueued r
    = filter (λ tx, ti_poolType tx = Pending
                    ∧ otherPool (txMap second) tx = Some Queued) first
  ∧ movedToPending r
    = filter (λ tx, ti_poolType tx = Queued
                    ∧ otherPool (txMap second) tx = Some Pending) first
  ∧ newTransactions r
    = filter (λ tx, txMap first !! ti_hash tx = None) second.
Proof.
  unfold compareFiles; simpl. rewrite classify_fold, collectNew_fold. done.
Qed.

Lemma elem_of_hashes_filter (P : TransactionInfo → Prop)
    `{!∀ tx, Decision (P tx)} l h :
  h ∈ hashes (filter P l) ↔ ∃ tx, tx ∈ l ∧ P tx ∧ ti_hash tx = h.
Proof.
  rewrite elem_of_hashes. setoid_rewrite list_elem_of_filter. naive_solver.
Qed.


Lemma poolIn_None l h : poolIn l h = None ↔ h ∉ hashes l.
Proof. unfold poolIn. by rewrite fmap_None, txMap_lookup_None. Qed.

Lemma poolIn_lastPool l h : poolIn l h = lastPool l h.
Proof. unfold poolIn, lastPool. by rewrite txMap_lookup_last. Qed.

Lemma poolIn_Some_inPool l h p : poolIn l h = Some p → inPool l h p.
Proof.
  unfold poolIn. rewrite fmap_Some. intros (tx & Hm & ->).
  apply txMap_lookup_Some in Hm as [? ?]. by exists tx.
Qed.

Lemma inPool_hashes l h p : inPool l h p → h ∈ hashes l.
Proof. intros (tx & ? & ? & ?). apply elem_of_hashes. by exists tx. Qed.

Lemma inPool_poolIn_is_Some l h p : inPool l h p → is_Some (poolIn l h).
Proof.
  intros Hin%inPool_hashes. destruct (poolIn l h) eqn:E; [eauto|].
  by apply poolIn_None in E.
Qed.

Lemma hashes_poolIn_inPool l h : h ∈ hashes l → ∃ p, inPool l h p.
Proof.
  intros (tx & ? & ?)%elem_of_hashes. exists (ti_poolType tx). by exists tx.
Qed.

(** Every record extracted from a sub-pool carries that sub-pool's type. *)
Lemma extractPool_poolType p (c : MempoolContent) tx :
  tx ∈ extractPool p c → ti_poolType tx = p.
Proof.
  unfold extractPool. intros ([a ad] & Htx & _)%list_elem_of_bind.
  apply list_elem_of_bind in Htx as ([n t] & Htx & _).
  apply list_elem_of_singleton in Htx. by subst.
Qed.

Lemma inPool_extractAll d h p :
  inPool (extractAllTransactions d) h p
  ↔ h ∈ hashes (extractPool p (default [] (match p with
                                            | Pending => pending d
                                            | Queued => queued d
                                            end))).
Proof.
  unfold inPool, extractAllTransactions. rewrite elem_of_hashes. split.
  - intros (tx & Hin & Hh & Hp). exists tx. split; [|done].
    apply elem_of_app in Hin as [Hin|Hin];
      pose proof (extractPool_poolType _ _ _ Hin) as Hq;
      rewrite Hp in Hq; by rewrite Hq.
  - intros (tx & Hin & Hh). exists tx.
    pose proof (extractPool_poolType _ _ _ Hin).
    rewrite elem_of_app. destruct p; auto.
Qed.

(** In a pool-consistent snapshot the lookup records the one pool type
    under which the hash occurs. *)
Lemma consistent_inPool d h p :
  pool_consistent d →
  inPool (extractAllTransactions d) h p
  ↔ poolIn (extractAllTransactions d) h = Some p.
Proof.
  intros Hc. split; [|apply poolIn_Some_inPool].
  intros Hin. destruct (inPool_poolIn_is_Some _ _ _ Hin) as [q Hq].
  rewrite Hq. f_equal. apply poolIn_Some_inPool in Hq.
  apply inPool_extractAll in Hin, Hq. unfold pool_consistent in Hc.
  destruct p, q; try done; exfalso; set_solver.
Qed.

(** Membership of a hash in each of the five categories. *)
Lemma categories_spec (a b : MempoolFile) h :
  let F := extractAllTransactions (data a) in
  let G := extractAllTransactions (data b) in
  let r := compareFiles a b in
  (h ∈ hashes (disappearedTransactions r) ↔ h ∈ hashes F ∧ poolIn G h = None)
  ∧ (h ∈ hashes (stillPending r) ↔ ∃ p, inPool F h p ∧ poolIn G h = Some p)
  ∧ (h ∈ hashes (movedToQueued r)
     ↔ inPool F h Pending ∧ poolIn G h = Some Queued)
  ∧ (h ∈ hashes (movedToPending r)
     ↔ inPool F h Queued ∧ poolIn G h = Some Pending)
  ∧ (h ∈ hashes (newTransactions r) ↔ h ∈ hashes G ∧ poolIn F h = None).
Proof.
  intros F G r. subst r.
  pose proof (compareFiles_filters a b) as Hf. cbv zeta in Hf.
  destruct Hf as (-> & -> & -> & -> & ->).
  fold F G. rewrite !elem_of_hashes_filter, !elem_of_hashes.
  unfold inPool, otherPool, poolIn.
  split_and!; split.
  - intros (tx & ? & ? & <-); eauto.
  - intros [(tx & ? & <-) ?]; eauto.
  - intros (tx & ? & ? & <-); eauto 6.
  - intros (p & (tx & ? & <- & <-) & ?); eauto.
  - intros (tx & ? & [? ?] & <-); eauto 6.
  - intros [(tx & ? & <- & ?) ?]; eauto 6.
  - intros (tx & ? & [? ?] & <-); eauto 6.
  - intros [(tx & ? & <- & ?) ?]; eauto 6.
  - intros (tx & ? & Hn & <-). rewrite Hn. eauto.
  - intros [(tx & ? & <-) Hn%fmap_None]. eauto.
Qed.

Lemma classification_exhaustive l l' h :
  h ∈ hashes l →
  poolIn l' h = None
  ∨ (∃ p, inPool l h p ∧ poolIn l' h = Some p)
  ∨ (inPool l h Pending ∧ poolIn l' h = Some Queued)
  ∨ (inPool l h Queued ∧ poolIn l' h = Some Pending).
Proof.
  intros [p Hp]%hashes_poolIn_inPool.
  destruct (poolIn l' h) as [q|]; [|by left].
  destruct p, q; eauto 6.
Qed.

Lemma disjoint_by_hash_holds (a b : MempoolFile) :
  disjoint_by_hash (compareFiles a b).
Proof.
  unfold disjoint_by_hash; cbv zeta.
  split_and!; intros h;
    destruct (categories_spec a b h) as (HD & HS & HQ & HP & HN); cbv zeta in *;
    rewrite ?HD, ?HS, ?HQ, ?HP, ?HN; clear HD HS HQ HP HN.
  - intros [_ Hn] [Hg _]. by apply poolIn_None in Hn.
  - intros [_ Hn] (p & _ & Hs). congruence.
  - intros [_ Hn] [_ Hs]. congruence.
  - intros [_ Hn] [_ Hs]. congruence.
  - intros [_ Hn] (p & Hf%inPool_hashes & _). by apply poolIn_None in Hn.
  - intros [_ Hn] [Hf%inPool_hashes _]. by apply poolIn_None in Hn.
  - intros [_ Hn] [Hf%inPool_hashes _]. by apply poolIn_None in Hn.
  - intros [_ Hq] [_ Hp]. congruence.
Qed.

Lemma union_identities_hold (a b : MempoolFile) :
  union_identities (data a) (data b) (compareFiles a b).
Proof.
  unfold union_identities; cbv zeta.
  set (F := hashes (extractAllTransactions (data a))).
  set (G := hashes (extractAllTransactions (data b))).
  assert (hashes (stillPending (compareFiles a b))
          ∪ hashes (movedToQueued (compareFiles a b))
          ∪ hashes (movedToPending (compareFiles a b))
          ∪ hashes (disappearedTransactions (compareFiles a b)) = F) as HF.
  { apply set_eq; intros h. rewrite !elem_of_union.
    destruct (categories_spec a b h) as (HD & HS & HQ & HP & _); cbv zeta in *.
    rewrite HD, HS, HQ, HP. split.
    - intros [[[(p & Hf & _)|[Hf _]]|[Hf _]]|[? _]];
        [by eapply inPool_hashes..|done].
    - intros Hf.
      destruct (classification_exhaustive _ (extractAllTransactions (data b)) _ Hf)
        as [?|[?|[?|?]]]; auto. }
  assert (hashes (newTransactions (compareFiles a b)) ∪ F ∩ G = G) as HG.
  { apply set_eq; intros h. rewrite elem_of_union, elem_of_intersection.
    destruct (categories_spec a b h) as (_ & _ & _ & _ & HN); cbv zeta in *.
    rewrite HN. split; [tauto|]. intros Hg.
    destruct (decide (h ∈ F)) as [Hf|Hf]; [by right|].
    left. split; [done|]. by apply poolIn_None. }
  split_and!; [|done..]. apply set_eq; intros h.
  pose proof (proj1 (set_eq _ _) HF h) as HFh.
  pose proof (proj1 (set_eq _ _) HG h) as HGh. clear HF HG.
  rewrite !elem_of_union in *. rewrite elem_of_intersection in HGh. tauto.
Qed.

(** In a snapshot without repeated hashes no hash is in both sub-pools. *)
Lemma hash_unique_consistent d : hash_unique d → pool_consistent d.
Proof.
  unfold hash_unique, pool_consistent, extractAllTransactions.
  rewrite fmap_app. intros (_ & Hdis & _)%NoDup_app h Hp Hq.
  unfold hashes in Hp, Hq. rewrite elem_of_list_to_set in Hp, Hq.
  by apply (Hdis h).
Qed.

Lemma partition_of_consistent (a b : MempoolFile) :
  pool_consistent (data a) → partition_property a b.
Proof.
  intros Hc. split; [|apply union_identities_hold].
  destruct (disjoint_by_hash_holds a b)
    as (? & ? & ? & ? & ? & ? & ? & ?).
  unfold pairwise_disjoint; cbv zeta. split_and!; try done; intros h;
    destruct (categories_spec a b h) as (_ & HS & HQ & HP & _); cbv zeta in *;
    rewrite ?HS, ?HQ, ?HP; clear HS HQ HP.
  - intros (p & Hf & Hg) [Hf' Hg'].
    apply (consistent_inPool _ _ _ Hc) in Hf, Hf'. congruence.
  - intros (p & Hf & Hg) [Hf' Hg'].
    apply (consistent_inPool _ _ _ Hc) in Hf, Hf'. congruence.
Qed.

Lemma elem_of_fmap_hashes l h : h ∈ ti_hash <$> l ↔ h ∈ hashes l.
Proof. unfold hashes. by rewrite elem_of_list_to_set. Qed.

Lemma NoDup_hash_filter (P : TransactionInfo → Prop)
    `{!∀ tx, Decision (P tx)} l :
  NoDup (ti_hash <$> l) → NoDup (ti_hash <$> filter P l).
Proof.
  intros Hl. apply (sublist_NoDup _ _ Hl), fmap_sublist, sublist_filter.
Qed.

(** Without repeated hashes in either snapshot, no hash is listed twice
    across the five arrays. *)
Lemma all_categories_NoDup (a b : MempoolFile) :
  hash_unique (data a) → hash_unique (data b) →
  NoDup (ti_hash <$> all_categories (compareFiles a b)).
Proof.
  intros Ha Hb.
  destruct (partition_of_consistent a b (hash_unique_consistent _ Ha))
    as [Hdisj _].
  unfold pairwise_disjoint in Hdisj; cbv zeta in Hdisj.
  destruct Hdisj as (DN & DS & DQ & DP & NS & NQ & NP & SQ & SP & QP).
  assert (NoDup (ti_hash <$> disappearedTransactions (compareFiles a b))
          ∧ NoDup (ti_hash <$> stillPending (compareFiles a b))
          ∧ NoDup (ti_hash <$> movedToQueued (compareFiles a b))
          ∧ NoDup (ti_hash <$> movedToPending (compareFiles a b))
          ∧ NoDup (ti_hash <$> newTransactions (compareFiles a b)))
    as (ND & NS' & NQ' & NP' & NN).
  { pose proof (compareFiles_filters a b) as Hf. cbv zeta in Hf.
    destruct Hf as (-> & -> & -> & -> & ->).
    split_and!; by apply NoDup_hash_filter. }
  unfold all_categories. rewrite !fmap_app.
  repeat (apply NoDup_app; split_and!; try done);
    intros h; rewrite ?elem_of_app, !elem_of_fmap_hashes; intros Hh;
    specialize (DN h); specialize (DS h); specialize (DQ h);
    specialize (DP h); specialize (NS h); specialize (NQ h);
    specialize (NP h); specialize (SQ h); specialize (SP h);
    specialize (QP h); tauto.
Qed.

Lemma swap_disappeared_new (a b : MempoolFile) :
  hashes (disappearedTransactions (compareFiles a b))
  = hashes (newTransactions (compareFiles b a)).
Proof.
  apply set_eq; intros h.
  destruct (categories_spec a b h) as (HD & _).
  destruct (categories_spec b a h) as (_ & _ & _ & _ & HN).
  cbv zeta in *. by rewrite HD, HN.
Qed.

Lemma swap_of_consistent (a b : MempoolFile) :
  pool_consistent (data a) → pool_consistent (data b) → swap_property a b.
Proof.
  intros Ha Hb. unfold swap_property; cbv zeta.
  split_and!; [apply swap_disappeared_new|..]; apply set_eq; intros h;
    destruct (categories_spec a b h) as (_ & HS & HQ & HP & _);
    destruct (categories_spec b a h) as (_ & HS' & HQ' & HP' & _);
    cbv zeta in *.
  - rewrite HQ, HP'.
    rewrite (consistent_inPool _ _ _ Ha), (consistent_inPool _ _ _ Hb). tauto.
  - rewrite HP, HQ'.
    rewrite (consistent_inPool _ _ _ Ha), (consistent_inPool _ _ _ Hb). tauto.
  - rewrite HS, HS'. split; intros (p & Hi & Ho); exists p.
    + apply (consistent_inPool _ _ _ Ha) in Hi.
      by apply poolIn_Some_inPool in Ho.
    + apply (consistent_inPool _ _ _ Hb) in Hi.
      by apply poolIn_Some_inPool in Ho.
Qed.

(** *** The extractor *)

Lemma elem_of_extractPool p (c : MempoolContent) tx :
  tx ∈ extractPool p c
  ↔ ∃ addressData t,
      (ti_address tx, addressData) ∈ c
      ∧ (ti_nonce tx, t) ∈ addressData
      ∧ tx = mkInfo p (ti_address tx) (ti_nonce tx) t.
Proof.
  unfold extractPool. rewrite list_elem_of_bind. split.
  - intros ([a ad] & Htx & Hc). apply list_elem_of_bind in Htx.
    destruct Htx as ([n t] & Htx & Had).
    apply list_elem_of_singleton in Htx. subst tx; simpl. eauto.
  - intros (ad & t & Hc & Had & Htx). exists (ti_address tx, ad).
    split; [|done]. apply list_elem_of_bind. exists (ti_nonce tx, t).
    split; [|done]. by apply list_elem_of_singleton.
Qed.

Lemma elem_of_extractAll d tx : tx ∈ extractAllTransactions d ↔ located d tx.
Proof.
  unfold extractAllTransactions, located.
  rewrite elem_of_app, !elem_of_extractPool. split.
  - intros [(ad & t & ? & ? & Htx)|(ad & t & ? & ? & Htx)];
      exists ad, t; rewrite Htx; simpl; rewrite Htx in *; simpl in *; done.
  - intros (ad & t & Hc & Had & Htx).
    destruct (ti_poolType tx); [left|right]; eauto.
Qed.

Lemma extractPool_cons p (a : string) (ad : JsObject MempoolTransaction)
    (c : MempoolContent) :
  extractPool p ((a, ad) :: c)
  = ((λ e, mkInfo p a e.1 e.2) <$> ad) ++ extractPool p c.
Proof.
  unfold extractPool at 1. rewrite bind_cons. f_equal.
  induction ad as [|[n t] ad IH]; [done|]. rewrite bind_cons, IH. done.
Qed.

Lemma extractPool_locations p (c : MempoolContent) :
  location <$> extractPool p c = poolKeys p c.
Proof.
  induction c as [|[a ad] c IH]; [done|].
  rewrite extractPool_cons, fmap_app, IH.
  unfold poolKeys at 2. rewrite bind_cons. f_equal.
  unfold Object_keys. rewrite <- !list_fmap_compose. done.
Qed.

Lemma extractPool_hashes p (c : MempoolContent) :
  ti_hash <$> extractPool p c = tx_hash <$> poolValues c.
Proof.
  induction c as [|[a ad] c IH]; [done|].
  rewrite extractPool_cons, fmap_app, IH.
  unfold poolValues, Object_values. rewrite fmap_cons, bind_cons, fmap_app.
  f_equal. rewrite <- !list_fmap_compose. done.
Qed.

Lemma extractPool_length p (c : MempoolContent) :
  length (extractPool p c) = Collector.countPool c.
Proof.
  unfold Collector.countPool.
  assert (∀ (vs : list (JsObject MempoolTransaction)) n,
            fold_left (λ count addressData,
                         count + length (Object_keys addressData)) vs n
            = n + sum_list_with length vs) as Hfold.
  { induction vs as [|ad vs IH]; intros n; simpl; [lia|].
    rewrite IH. unfold Object_keys. rewrite length_fmap. lia. }
  rewrite Hfold. simpl.
  induction c as [|[a ad] c IH]; [done|].
  rewrite extractPool_cons, length_app, length_fmap, IH. done.
Qed.

Lemma extractPool_filter_same p (c : MempoolContent) :
  filter (λ tx, ti_poolType tx = p) (extractPool p c) = extractPool p c.
Proof.
  pose proof (extractPool_poolType p c) as Hp.
  induction (extractPool p c) as [|tx l IH]; [done|].
  rewrite filter_cons_True by (apply Hp; left).
  f_equal. apply IH. intros tx' Hin. apply Hp. by right.
Qed.

Lemma extractPool_filter_other p q (c : MempoolContent) :
  p ≠ q → filter (λ tx, ti_poolType tx = p) (extractPool q c) = [].
Proof.
  intros Hpq. pose proof (extractPool_poolType q c) as Hq.
  induction (extractPool q c) as [|tx l IH]; [done|].
  rewrite filter_cons_False.
  - apply IH. intros tx' Hin. apply Hq. by right.
  - rewrite (Hq tx) by left. congruence.
Qed.

(** A key of a well-formed object determines its value. *)
Lemma wf_object_functional {V} (o : JsObject V) k (v1 v2 : V) :
  wf_object o → (k, v1) ∈ o → (k, v2) ∈ o → v1 = v2.
Proof.
  unfold wf_object. induction o as [|[k' v'] o IH]; simpl.
  { by intros _ ?%elem_of_nil. }
  intros [Hk Ho]%NoDup_cons [H1|H1]%elem_of_cons [H2|H2]%elem_of_cons.
  - congruence.
  - injection H1 as -> ->. exfalso. apply Hk.
    apply list_elem_of_fmap. by exists (k', v2).
  - injection H2 as -> ->. exfalso. apply Hk.
    apply list_elem_of_fmap. by exists (k', v1).
  - by apply IH.
Qed.

Lemma poolKeys_NoDup p (c : MempoolContent) : wf_content c → NoDup (poolKeys p c).
Proof.
  intros [Hc Hads]. unfold poolKeys. apply NoDup_bind.
  - intros [a1 ad1] [a2 ad2] y H1 H2 Hy1 Hy2.
    apply list_elem_of_fmap in Hy1 as (n1 & -> & _).
    apply list_elem_of_fmap in Hy2 as (n2 & [= <- _] & _).
    f_equal. by eapply wf_object_functional.
  - intros [a ad] Hin. apply NoDup_fmap_2_strong.
    + by intros n1 n2 _ _ [= ->].
    + rewrite Forall_forall in Hads. apply (Hads _ Hin).
  - by apply NoDup_fmap_1 in Hc.
Qed.

Lemma poolKeys_poolType p (c : MempoolContent) y : y ∈ poolKeys p c → y.1.1 = p.
Proof.
  unfold poolKeys. intros ([a ad] & Hy & _)%list_elem_of_bind.
  by apply list_elem_of_fmap in Hy as (n & -> & _).
Qed.

End ComparatorFacts.

(** ** Facts about the monitor *)

Section MonitorFacts.
Import Monitor Tracking.

Implicit Types (st : MonitorState) (s : Scan) (added : list string).

Lemma grows_refl st : grows st st [].
Proof.
  unfold grows. split_and!; try done.
  - constructor.
  - by intros h ?%elem_of_nil.
  - simpl. by rewrite union_empty_r_L.
Qed.

Lemma grows_trans st st' st'' added added' :
  grows st st' added → grows st' st'' added' →
  grows st st'' (added ++ added').
Proof.
  intros (Hnd & Hnew & Hseen & Hinv & Hfix)
         (Hnd' & Hnew' & Hseen' & Hinv' & Hfix').
  unfold grows. split_and!.
  - apply NoDup_app. split_and!; [done| |done].
    intros h Hh Hh'. apply (Hnew' h Hh'). rewrite Hseen.
    apply elem_of_union_r. by apply elem_of_list_to_set.
  - intros h [Hh|Hh]%elem_of_app; [by apply Hnew|].
    intros Hs. apply (Hnew' h Hh). rewrite Hseen. by apply elem_of_union_l.
  - rewrite Hseen', Hseen, list_to_set_app_L. by rewrite (assoc_L (∪)).
  - auto.
  - intros h Hh. rewrite Hfix', Hfix; [done..|].
    rewrite Hseen. by apply elem_of_union_l.
Qed.

(** One iteration over a wallet transaction. *)
Lemma visit_grows (clk : nat → Date) s (tx : TransactionWithMetadata) :
  ∃ new, newTransactions (visit clk s tx) = newTransactions s ++ new
         ∧ grows (state s) (state (visit clk s tx)) (hash <$> new).
Proof.
  unfold visit. case_decide as Hseen; simpl.
  - exists []. rewrite app_nil_r. split; [done|]. apply grows_refl.
  - exists [tx]. split; [done|]. unfold grows; simpl. split_and!.
    + apply NoDup_singleton.
    + by intros h ->%list_elem_of_singleton.
    + rewrite union_empty_r_L. apply union_comm_L.
    + intros Hinv h. simpl.
      rewrite elem_of_union, elem_of_singleton, lookup_insert.
      case_decide as Hh.
      * subst h. split; eauto.
      * rewrite <- (Hinv h). split; [intros [?|?]|]; by auto.
    + intros h Hh. rewrite lookup_insert_ne; [done|]. by intros <-.
Qed.

Lemma visit_fold_grows (clk : nat → Date) (txs : list TransactionWithMetadata) s :
  ∃ new, newTransactions (fold_left (visit clk) txs s) = newTransactions s ++ new
         ∧ grows (state s) (state (fold_left (visit clk) txs s)) (hash <$> new).
Proof.
  revert s. induction txs as [|tx txs IH]; intros s; simpl.
  - exists []. rewrite app_nil_r. split; [done|]. apply grows_refl.
  - destruct (visit_grows clk s tx) as (new1 & Hn1 & Hg1).
    destruct (IH (visit clk s tx)) as (new2 & Hn2 & Hg2).
    exists (new1 ++ new2). rewrite Hn2, Hn1, <- app_assoc. split; [done|].
    rewrite fmap_app. by eapply grows_trans.
Qed.

Lemma scanPool_grows w (clk : nat → Date) (d : MempoolResult) s p :
  ∃ new, newTransactions (scanPool w clk d s p) = newTransactions s ++ new
         ∧ grows (state s) (state (scanPool w clk d s p)) (hash <$> new).
Proof.
  unfold scanPool.
  destruct (poolOf d p) as [poolData|];
    [destruct (Object_get poolData w) as [addressData|]|];
    try (exists []; rewrite app_nil_r; split; [done|apply grows_refl]).
  destruct (extractTransactionsFromAddress clk (tick s) addressData p)
    as [txs tick'].
  apply (visit_fold_grows clk txs
           {| state := state s; tick := tick';
              allWalletTransactions := allWalletTransactions s;
              newTransactions := newTransactions s |}).
Qed.

Lemma scanPool_fold_grows w (clk : nat → Date) (d : MempoolResult)
    (ps : list PoolType) s :
  ∃ new, newTransactions (fold_left (scanPool w clk d) ps s)
           = newTransactions s ++ new
         ∧ grows (state s) (state (fold_left (scanPool w clk d) ps s))
                 (hash <$> new).
Proof.
  revert s. induction ps as [|p ps IH]; intros s; simpl.
  - exists []. rewrite app_nil_r. split; [done|]. apply grows_refl.
  - destruct (scanPool_grows w clk d s p) as (new1 & Hn1 & Hg1).
    destruct (IH (scanPool w clk d s p)) as (new2 & Hn2 & Hg2).
    exists (new1 ++ new2). rewrite Hn2, Hn1, <- app_assoc. split; [done|].
    rewrite fmap_app. by eapply grows_trans.
Qed.

(** One poll cycle marks exactly the hashes it reports as new. *)
Lemma checkMempool_grows w (c : Cycle) st :
  grows st (checkMempool w c st).2 (newHashes (checkMempool w c st).1).
Proof.
  unfold checkMempool, newHashes. destruct (fetched c) as [d|]; simpl.
  - destruct (scanPool_fold_grows w (clock c) d [Pending; Queued]
                {| state := st; tick := 0;
                   allWalletTransactions := []; newTransactions := [] |})
      as (new & Hn & Hg).
    simpl in *. by rewrite Hn.
  - apply grows_refl.
Qed.

Lemma run_cons w (c : Cycle) (cycles : list Cycle) st :
  run w (c :: cycles) st
  = ((checkMempool w c st).1 :: (run w cycles (checkMempool w c st).2).1,
     (run w cycles (checkMempool w c st).2).2).
Proof.
  simpl. destruct (checkMempool w c st) as [r st']; simpl.
  by destruct (run w cycles st').
Qed.

Lemma run_app w (cycles cycles' : list Cycle) st :
  run w (cycles ++ cycles') st
  = ((run w cycles st).1 ++ (run w cycles' (run w cycles st).2).1,
     (run w cycles' (run w cycles st).2).2).
Proof.
  revert st. induction cycles as [|c cycles IH]; intros st.
  - simpl. by destruct (run w cycles' st).
  - rewrite <- app_comm_cons, !run_cons, IH. done.
Qed.

(** A run marks exactly the hashes its cycles report as new. *)
Lemma run_grows w (cycles : list Cycle) st :
  grows st (run w cycles st).2 (mjoin (newHashes <$> (run w cycles st).1)).
Proof.
  revert st. induction cycles as [|c cycles IH]; intros st.
  - apply grows_refl.
  - rewrite run_cons; simpl. eapply grows_trans; [apply checkMempool_grows|].
    apply IH.
Qed.

Lemma initialState_consistent : consistent initialState.
Proof.
  intros h; simpl. rewrite lookup_empty. split.
  - by intros ?%elem_of_empty.
  - by intros [? ?].
Qed.

Lemma run_consistent w (cycles : list Cycle) :
  consistent (run w cycles initialState).2.
Proof.
  destruct (run_grows w cycles initialState) as (_ & _ & _ & Hinv & _).
  apply Hinv, initialState_consistent.
Qed.

(** Lists without a common element, joined without repetition, hold
    each element at one index only. *)
Lemma NoDup_join_index {A} (ls : list (list A)) i j li lj (x : A) :
  NoDup (mjoin ls) → ls !! i = Some li → ls !! j = Some lj →
  x ∈ li → x ∈ lj → i = j.
Proof.
  revert i j. induction ls as [|l ls IH]; intros i j Hnd Hi Hj Hxi Hxj.
  { by rewrite lookup_nil in Hi. }
  simpl in Hnd. apply NoDup_app in Hnd as (_ & Hdis & Hnd).
  assert (∀ k lk, ls !! k = Some lk → x ∈ lk → x ∈ mjoin ls) as Hjoin.
  { intros k lk Hk Hx. apply list_elem_of_join. exists lk. split; [done|].
    by eapply list_elem_of_lookup_2. }
  destruct i as [|i], j as [|j]; simpl in *.
  - done.
  - injection Hi as ->. exfalso. eapply Hdis; eauto.
  - injection Hj as ->. exfalso. eapply Hdis; eauto.
  - f_equal. eauto.
Qed.

End MonitorFacts.

(** ** The behaviour on the specification's scenarios *)

Section DifferScenarios.
Import Comparator Claims.

(** A hash pending in the first snapshot and absent from the second is
    listed as disappeared and nowhere else. *)
Example scenario_disappeared :
  let r := compareFiles onlyPending emptyPool in
  ti_hash <$> disappearedTransactions r = ["0xaa"]
  ∧ newTransactions r = [] ∧ stillPending r = []
  ∧ movedToQueued r = [] ∧ movedToPending r = [].
Proof. by vm_compute. Qed.

(** A hash pending in the first snapshot and queued in the second is
    listed as moved to queued and nowhere else. *)
Example scenario_moved_to_queued :
  let r := compareFiles onlyPending onlyQueued in
  ti_hash <$> movedToQueued r = ["0xaa"]
  ∧ disappearedTransactions r = [] ∧ newTransactions r = []
  ∧ stillPending r = [] ∧ movedToPending r = [].
Proof. by vm_compute. Qed.

(** With a hash in both sub-pools of the first snapshot, the pending
    record is listed as still in its pool and the queued one as moved. *)
Example diff_bothPools_onlyPending :
  let r := compareFiles bothPools onlyPending in
  ti_hash <$> stillPending r = ["0xaa"]
  ∧ ti_hash <$> movedToPending r = ["0xaa"].
Proof. by vm_compute. Qed.

Example diff_bothPools_onlyQueued :
  ti_hash <$> movedToQueued (compareFiles bothPools onlyQueued) = ["0xaa"]
  ∧ ti_hash <$> movedToPending (compareFiles onlyQueued bothPools) = [].
Proof. by vm_compute. Qed.

(** The lookup of a snapshot with the hash in both sub-pools keeps the
    queued record. *)
Example lookup_bothPools :
  poolIn (extractAllTransactions (data bothPools)) "0xaa" = Some Queued.
Proof. by vm_compute. Qed.

End DifferScenarios.

Section MonitorScenarios.
Import Monitor Tracking.

(** Two cycles seeing [{0x1, 0x2}] and then [{0x2, 0x3}]. *)
Example scenario_two_cycles :
  newHashes <$> resultsOf twoCycles = [["0x1"; "0x2"]; ["0x3"]]
  ∧ (λ r, length (cr_allWalletTransactions r)) <$> resultsOf twoCycles = [2; 2].
Proof. by vm_compute. Qed.

(** A failed third cycle, and a fresh hash on the fourth. *)
Example scenario_failed_cycle :
  newHashes <$> resultsOf fourCycles = [["0x1"; "0x2"]; ["0x3"]; []; ["0x4"]]
  ∧ size (seenTransactions (stateAfter wallet fourCycles 2)) = 3
  ∧ size (seenTransactions (stateAfter wallet fourCycles 3)) = 3.
Proof. by vm_compute. Qed.

End MonitorScenarios.

(** ** The differ, the extractor and the counter: main results *)

Section DifferResults.
Import Comparator Claims.

(** C1, as stated, fails.  With hash [0xaa] in both sub-pools of the first
    snapshot and pending in the second, the pending record is put in
    [stillPending] and the queued one in [movedToPending]: the two
    categories share the hash, so the five categories do not partition. *)
Lemma partition_fails_on_hash_in_both_pools :
  ¬ partition_property bothPools onlyPending.
Proof.
  intros [Hdisj _]. unfold pairwise_disjoint in Hdisj; cbv zeta in Hdisj.
  destruct Hdisj as (_ & _ & _ & _ & _ & _ & _ & _ & HSP & _).
  destruct diff_bothPools_onlyPending as [HS HP]. cbv zeta in HS, HP.
  apply (HSP "0xaa"); apply elem_of_fmap_hashes; rewrite ?HS, ?HP;
    apply list_elem_of_here.
Qed.

(** C1, amended.  For every pair of snapshots the three union identities
    hold and every two of the five categories are disjoint as hash sets,
    except possibly [stillPending] against the two moved categories; when
    no hash of the first snapshot occurs in both of its sub-pools, the
    five categories are pairwise disjoint, which gives the whole partition
    property; and when no hash occurs twice within either snapshot, no
    hash is listed twice across the five arrays. *)
Theorem differ_partition (a b : MempoolFile) :
  disjoint_by_hash (compareFiles a b)
  ∧ union_identities (data a) (data b) (compareFiles a b)
  ∧ (pool_consistent (data a) → partition_property a b)
  ∧ (hash_unique (data a) → hash_unique (data b) →
     NoDup (ti_hash <$> all_categories (compareFiles a b))).
Proof.
  split_and!.
  - apply disjoint_by_hash_holds.
  - apply union_identities_hold.
  - apply partition_of_consistent.
  - apply all_categories_NoDup.
Qed.

(** [differ_partition] on a hash that goes from pending to queued. *)
Lemma differ_partition_witness :
  pool_consistent (data onlyPending)
  ∧ hash_unique (data onlyPending)
  ∧ hash_unique (data onlyQueued)
  ∧ partition_property onlyPending onlyQueued
  ∧ NoDup (ti_hash <$> all_categories (compareFiles onlyPending onlyQueued)).
Proof.
  assert (hash_unique (data onlyPending)) as Ha
    by (unfold hash_unique; simpl; apply NoDup_singleton).
  assert (hash_unique (data onlyQueued)) as Hb
    by (unfold hash_unique; simpl; apply NoDup_singleton).
  assert (pool_consistent (data onlyPending)) as Hc
    by (apply hash_unique_consistent, Ha).
  destruct (differ_partition onlyPending onlyQueued) as (_ & _ & Hp & Hn).
  split_and!; auto.
Defined.

(** C8, as stated, fails.  With hash [0xaa] in both sub-pools of the one
    snapshot and queued in the other, the hash is moved to queued in the
    one direction and is not moved to pending in the other. *)
Lemma swap_fails_on_hash_in_both_pools :
  ¬ swap_property bothPools onlyQueued.
Proof.
  intros (_ & HQ & _). destruct diff_bothPools_onlyQueued as [Hq Hp].
  assert ("0xaa" ∈ hashes (movedToPending (compareFiles onlyQueued bothPools)))
    as Hin.
  { rewrite <- HQ. apply elem_of_fmap_hashes. rewrite Hq.
    apply list_elem_of_here. }
  apply elem_of_fmap_hashes in Hin. rewrite Hp in Hin.
  by apply elem_of_nil in Hin.
Qed.

(** C8, amended.  For every pair of snapshots the hashes disappeared in
    the one direction are the hashes new in the other; and when in
    neither snapshot a hash occurs in both sub-pools, the hashes moved to
    queued in the one direction are those moved to pending in the other,
    and conversely, and the hashes still in their pool are the same in
    both directions. *)
Theorem differ_swap (a b : MempoolFile) :
  hashes (disappearedTransactions (compareFiles a b))
  = hashes (newTransactions (compareFiles b a))
  ∧ (pool_consistent (data a) → pool_consistent (data b) →
     swap_property a b).
Proof.
  split; [apply swap_disappeared_new | apply swap_of_consistent].
Qed.

(** [differ_swap] on a hash that goes from pending to queued. *)
Lemma differ_swap_witness :
  pool_consistent (data onlyPending)
  ∧ pool_consistent (data onlyQueued)
  ∧ swap_property onlyPending onlyQueued.
Proof.
  assert (pool_consistent (data onlyPending)) as Ha
    by (apply hash_unique_consistent; unfold hash_unique; simpl;
        apply NoDup_singleton).
  assert (pool_consistent (data onlyQueued)) as Hb
    by (apply hash_unique_consistent; unfold hash_unique; simpl;
        apply NoDup_singleton).
  split_and!; [done..|]. by apply (proj2 (differ_swap onlyPending onlyQueued)).
Defined.

(** C7.  The lookup that the differ builds from a snapshot's extracted
    sequence maps a hash to the last record of that sequence carrying the
    hash, the sequence listing the pending records before the queued
    ones; so the differ classifies each record of the first snapshot
    against the pool type of the last record with its hash in the second
    snapshot. *)
Theorem lookup_keeps_last_location (a b : MempoolFile) (h : string) :
  let first := extractAllTransactions (data a) in
  let second := extractAllTransactions (data b) in
  let r := compareFiles a b in
  txMap second !! h = last (filter (λ tx, ti_hash tx = h) second)
  ∧ second = extractPool Pending (default [] (pending (data b)))
             ++ extractPool Queued (default [] (queued (data b)))
  ∧ disappearedTransactions r
    = filter (λ tx, lastPool second (ti_hash tx) = None) first
  ∧ stillPending r
    = filter (λ tx, lastPool second (ti_hash tx) = Some (ti_poolType tx)) first
  ∧ movedToQueued r
    = filter (λ tx, ti_poolType tx = Pending
                    ∧ lastPool second (ti_hash tx) = Some Queued) first
  ∧ movedToPending r
    = filter (λ tx, ti_poolType tx = Queued
                    ∧ lastPool second (ti_hash tx) = Some Pending) first.
Proof.
  intros first second r. subst r.
  pose proof (compareFiles_filters a b) as Hf. cbv zeta in Hf.
  destruct Hf as (-> & -> & -> & -> & _). fold first second.
  split_and!; [apply txMap_lookup_last | done | ..];
    apply list_filter_iff; intros tx;
    change (otherPool (txMap second) tx) with (poolIn second (ti_hash tx));
    by rewrite poolIn_lastPool.
Qed.

(** C9.  Every record of the four categories filled from the first
    snapshot sits at its own location in the first snapshot, a record
    moved to queued being a pending one and a record moved to pending a
    queued one; every record of the new category sits at its own location
    in the second snapshot. *)
Theorem categories_carry_source_location (a b : MempoolFile) :
  let r := compareFiles a b in
  Forall (located (data a)) (disappearedTransactions r)
  ∧ Forall (located (data a)) (stillPending r)
  ∧ Forall (located (data a)) (movedToQueued r)
  ∧ Forall (located (data a)) (movedToPending r)
  ∧ Forall (λ tx, ti_poolType tx = Pending) (movedToQueued r)
  ∧ Forall (λ tx, ti_poolType tx = Queued) (movedToPending r)
  ∧ Forall (located (data b)) (newTransactions r).
Proof.
  intros r. subst r.
  pose proof (compareFiles_filters a b) as Hf. cbv zeta in Hf.
  destruct Hf as (-> & -> & -> & -> & ->).
  split_and!; apply Forall_forall; intros tx [HP Hin]%list_elem_of_filter;
    try (by apply elem_of_extractAll); tauto.
Qed.

(** C6.  The locations of the extracted records are, in order, the
    [(address, nonce)] pairs of the pending sub-pool followed by those of
    the queued sub-pool, and their hashes are the hashes stored under
    these pairs, repeated ones included; in a snapshot whose objects have
    distinct keys no location is produced twice; an absent sub-pool gives
    what an empty one gives; and the extracted records are exactly the
    records built from a transaction stored under its address and nonce
    in its sub-pool. *)
Theorem extractor_contract (d : MempoolResult) :
  location <$> extractAllTransactions d
  = poolKeys Pending (default [] (pending d))
    ++ poolKeys Queued (default [] (queued d))
  ∧ ti_hash <$> extractAllTransactions d
    = tx_hash <$> (poolValues (default [] (pending d))
                   ++ poolValues (default [] (queued d)))
  ∧ (wf_result d → NoDup (location <$> extractAllTransactions d))
  ∧ extractAllTransactions {| pending := None; queued := queued d |}
    = extractAllTransactions {| pending := Some []; queued := queued d |}
  ∧ extractAllTransactions {| pending := pending d; queued := None |}
    = extractAllTransactions {| pending := pending d; queued := Some [] |}
  ∧ ∀ tx, tx ∈ extractAllTransactions d ↔ located d tx.
Proof.
  assert (location <$> extractAllTransactions d
          = poolKeys Pending (default [] (pending d))
            ++ poolKeys Queued (default [] (queued d))) as Hloc.
  { unfold extractAllTransactions.
    by rewrite fmap_app, !extractPool_locations. }
  split_and!; [done| | |done..|apply elem_of_extractAll].
  - unfold extractAllTransactions.
    by rewrite !fmap_app, !extractPool_hashes.
  - intros [Hp Hq]. rewrite Hloc. apply NoDup_app. split_and!.
    + by apply poolKeys_NoDup.
    + intros y Hy Hy'. apply poolKeys_poolType in Hy, Hy'. congruence.
    + by apply poolKeys_NoDup.
Qed.

(** [extractor_contract] on a snapshot holding one hash under two
    locations: two records, two distinct locations. *)
Lemma extractor_contract_witness :
  wf_result (data bothPools)
  ∧ NoDup (location <$> extractAllTransactions (data bothPools))
  ∧ ti_hash <$> extractAllTransactions (data bothPools) = ["0xaa"; "0xaa"].
Proof.
  assert (wf_result (data bothPools)) as Hwf.
  { unfold wf_result, wf_content, wf_object; simpl.
    split_and!; repeat constructor; by intros ?%elem_of_nil. }
  split_and!; [done| |reflexivity].
  by apply (proj1 (proj2 (proj2 (extractor_contract (data bothPools))))).
Defined.

(** C10.  The collector's two counts are the numbers of pending and of
    queued records that the comparator extracts, and their sum is the
    length of the extracted sequence. *)
Theorem count_matches_extraction (d : MempoolResult) :
  let counts := Collector.countTransactions d in
  let extracted := extractAllTransactions d in
  Collector.pendingTransactions counts
  = length (filter (λ tx, ti_poolType tx = Pending) extracted)
  ∧ Collector.queuedTransactions counts
    = length (filter (λ tx, ti_poolType tx = Queued) extracted)
  ∧ Collector.pendingTransactions counts + Collector.queuedTransactions counts
    = length extracted.
Proof.
  intros counts extracted. subst counts extracted.
  unfold extractAllTransactions, Collector.countTransactions; simpl.
  rewrite !filter_app, !extractPool_filter_same.
  rewrite !extractPool_filter_other by done.
  rewrite app_nil_r, !length_app, !extractPool_length. simpl. done.
Qed.

End DifferResults.

(** ** The live monitor: main results *)

Section MonitorResults.
Import Monitor Tracking.

(** C2.  Over the cycles of a run started from the empty state, the
    hashes reported as new, taken cycle after cycle, never repeat: a hash
    reported as new by two cycles is reported by one and the same cycle. *)
Theorem new_reported_once (w : string) (cycles : list Cycle) :
  NoDup (mjoin (newHashes <$> (run w cycles initialState).1))
  ∧ ∀ i j ri rj h,
      (run w cycles initialState).1 !! i = Some ri →
      (run w cycles initialState).1 !! j = Some rj →
      h ∈ newHashes ri → h ∈ newHashes rj → i = j.
Proof.
  destruct (run_grows w cycles initialState) as (Hnd & _).
  split; [done|]. intros i j ri rj h Hi Hj Hri Hrj.
  apply (NoDup_join_index _ i j (newHashes ri) (newHashes rj) h Hnd);
    [| |done..]; rewrite list_lookup_fmap; [by rewrite Hi|by rewrite Hj].
Qed.

(** [new_reported_once] on the run of two cycles: hash [0x2], new in the
    first cycle, is not new in the second, where it has moved to queued. *)
Lemma new_reported_once_witness :
  ∃ r0 r1,
    resultsOf twoCycles !! 0 = Some r0
    ∧ resultsOf twoCycles !! 1 = Some r1
    ∧ "0x2" ∈ newHashes r0
    ∧ "0x2" ∉ newHashes r1.
Proof.
  destruct (resultsOf twoCycles) as [|r0 [|r1 rs]] eqn:Hrun;
    [discriminate (f_equal length Hrun)..|].
  exists r0, r1.
  assert (newHashes r0 = ["0x1"; "0x2"]) as H0.
  { change r0 with (default r0 ((r0 :: r1 :: rs) !! 0)).
    rewrite <- Hrun. by vm_compute. }
  split_and!; [done..| |].
  - rewrite H0. apply list_elem_of_further, list_elem_of_here.
  - intros H1.
    assert ("0x2" ∈ newHashes r0) as H0' by
      (rewrite H0; apply list_elem_of_further, list_elem_of_here).
    unfold resultsOf in Hrun.
    pose proof (proj2 (new_reported_once wallet twoCycles) 0 1 r0 r1 "0x2") as Hu.
    rewrite Hrun in Hu. by specialize (Hu eq_refl eq_refl H0' H1).
Defined.

(** C3.  A cycle whose fetch returns no data gives the pair of two empty
    arrays and leaves the state as it was. *)
Theorem failed_fetch_changes_nothing (w : string) (c : Cycle)
    (st : MonitorState) :
  fetched c = None →
  checkMempool w c st
  = ({| cr_newTransactions := []; cr_allWalletTransactions := [] |}, st).
Proof. intros Hc. unfold checkMempool. by rewrite Hc. Qed.

(** [failed_fetch_changes_nothing] on the failed third cycle of the run
    of four cycles. *)
Lemma failed_fetch_changes_nothing_witness :
  fetched (fails 3000) = None
  ∧ checkMempool wallet (fails 3000) (stateAfter wallet fourCycles 2)
    = ({| cr_newTransactions := []; cr_allWalletTransactions := [] |},
       stateAfter wallet fourCycles 2).
Proof.
  split; [reflexivity|].
  apply (failed_fetch_changes_nothing wallet (fails 3000)). reflexivity.
Defined.

(** C4.  After every cycle of a run started from the empty state, a hash
    is in the seen set if and only if the first-seen map has an entry for
    it. *)
Theorem seen_iff_first_seen (w : string) (cycles : list Cycle) (n : nat)
    (h : string) :
  h ∈ seenTransactions (stateAfter w cycles n)
  ↔ is_Some (firstSeenTimes (stateAfter w cycles n) !! h).
Proof. apply run_consistent. Qed.

(** C5.  Once a run has recorded a first-seen instant for a hash, the
    cycles that follow leave that instant as it is. *)
Theorem first_seen_write_once (w : string) (before after : list Cycle)
    (h : string) (t : Date) :
  firstSeenTimes (run w before initialState).2 !! h = Some t →
  firstSeenTimes (run w (before ++ after) initialState).2 !! h = Some t.
Proof.
  intros Ht. rewrite run_app; simpl.
  destruct (run_grows w after (run w before initialState).2)
    as (_ & _ & _ & _ & Hfix).
  rewrite Hfix; [done|]. apply run_consistent. eauto.
Qed.

(** [first_seen_write_once] on the run of two cycles: the instant
    recorded for [0x2] in the first cycle survives the second. *)
Lemma first_seen_write_once_witness :
  firstSeenTimes (run wallet (take 1 twoCycles) initialState).2 !! "0x2"
  = Some 1003%Z
  ∧ firstSeenTimes
      (run wallet (take 1 twoCycles ++ drop 1 twoCycles) initialState).2
    !! "0x2"
    = Some 1003%Z.
Proof.
  assert (firstSeenTimes (run wallet (take 1 twoCycles) initialState).2
            !! "0x2" = Some 1003%Z) as Ht by (by vm_compute).
  split; [done|]. by apply first_seen_write_once.
Defined.

End MonitorResults.

(** ** Facts about what a cycle observes *)

Section ObservationFacts.
Import Monitor Tracking Observation.

Implicit Types (s : Scan) (txs : list TransactionWithMetadata).

Lemma observes_refl s : observes s s [].
Proof.
  unfold observes. rewrite app_nil_r; simpl. rewrite union_empty_r_L.
  split_and!; [done..|]. exists []. rewrite app_nil_r.
  split_and!; [done..|]. intros h; simpl. rewrite elem_of_nil. tauto.
Qed.

Lemma observes_trans s s' s'' txs txs' :
  observes s s' txs → observes s' s'' txs' → observes s s'' (txs ++ txs').
Proof.
  intros (Hall & Hseen & Htick & new & Hnew & Hsub & Hiff)
         (Hall' & Hseen' & Htick' & new' & Hnew' & Hsub' & Hiff').
  unfold observes. split_and!.
  - by rewrite Hall', Hall, app_assoc.
  - rewrite Hseen', Hseen, fmap_app, list_to_set_app_L.
    by rewrite (assoc_L (∪)).
  - lia.
  - exists (new ++ new'). split_and!.
    + by rewrite Hnew', Hnew, app_assoc.
    + by apply sublist_app.
    + intros h. rewrite !fmap_app, !elem_of_app, Hiff, Hiff', Hseen.
      rewrite elem_of_union, elem_of_list_to_set.
      destruct (decide (h ∈ hash <$> txs)); tauto.
Qed.

Lemma visit_observes (clk : nat → Date) s (tx : TransactionWithMetadata) :
  observes s (visit clk s tx) [tx].
Proof.
  unfold observes, visit. case_decide as Hseen; simpl.
  - split_and!; [done| |done|].
    + apply set_eq; intros h.
      rewrite elem_of_union, elem_of_union, elem_of_singleton, elem_of_empty.
      split; [tauto|]. intros [?|[->|[]]]; done.
    + exists []. rewrite app_nil_r. split_and!; [done|apply sublist_nil_l|].
      intros h. rewrite elem_of_nil, list_elem_of_singleton.
      split; [done|]. by intros [-> ?].
  - split_and!; [done| |lia|].
    + rewrite union_empty_r_L. apply union_comm_L.
    + exists [tx]. split_and!; [done..|].
      intros h. simpl. rewrite list_elem_of_singleton.
      split; [by intros ->|tauto].
Qed.

Lemma visit_fold_observes (clk : nat → Date) txs s :
  observes s (fold_left (visit clk) txs s) txs.
Proof.
  revert s. induction txs as [|tx txs IH]; intros s; simpl.
  - apply observes_refl.
  - apply (observes_trans s (visit clk s tx) _ [tx] txs);
      [apply visit_observes|apply IH].
Qed.

(** [extractTransactionsFromAddress]: one record per entry, in order,
    stamped with consecutive clock readings. *)
Lemma extract_fold (clk : nat → Date) (p : PoolType)
    (addressData : JsObject MempoolTransaction)
    (acc : list TransactionWithMetadata * nat) :
  let step := λ (acc : list TransactionWithMetadata * nat)
                (entry : string * MempoolTransaction),
                (acc.1 ++ [ {| base := withNonce entry.2 entry.1;
                               poolType := p;
                               firstSeen := clk acc.2 |} ],
                 S acc.2) in
  let out := fold_left step addressData acc in
  ∃ txs, out.1 = acc.1 ++ txs
         ∧ out.2 = acc.2 + length addressData
         ∧ (λ tx, (poolType tx, base tx)) <$> txs
           = (λ e, (p, withNonce e.2 e.1)) <$> addressData
         ∧ firstSeen <$> txs = clk <$> seq acc.2 (length addressData).
Proof.
  intros step out. subst out. revert acc.
  induction addressData as [|[n t] ad IH]; intros acc; simpl.
  - exists []. rewrite app_nil_r. split_and!; [done|lia|done..].
  - destruct (IH (step acc (n, t))) as (txs & H1 & H2 & H3 & H4).
    exists ({| base := withNonce t n; poolType := p; firstSeen := clk acc.2 |}
            :: txs).
    rewrite H1, H2. subst step. csimpl in *. rewrite <- app_assoc.
    split_and!; [done|lia|by rewrite H3|by rewrite H4].
Qed.

Lemma extract_spec (clk : nat → Date) (t : nat)
    (addressData : JsObject MempoolTransaction) (p : PoolType) :
  let out := extractTransactionsFromAddress clk t addressData p in
  out.2 = t + length addressData
  ∧ (λ tx, (poolType tx, base tx)) <$> out.1
    = (λ e, (p, withNonce e.2 e.1)) <$> addressData
  ∧ firstSeen <$> out.1 = clk <$> seq t (length addressData).
Proof.
  destruct (extract_fold clk p addressData ([], t))
    as (txs & H1 & H2 & H3 & H4).
  unfold extractTransactionsFromAddress. cbv zeta in *. simpl in *.
  rewrite H1, H2. done.
Qed.

Lemma extract_stamped (clk : nat → Date) (t : nat)
    (addressData : JsObject MempoolTransaction) (p : PoolType) :
  let out := extractTransactionsFromAddress clk t addressData p in
  Forall (stampedBefore clk out.2) out.1.
Proof.
  destruct (extract_spec clk t addressData p) as (H2 & _ & H4).
  cbv zeta in *. rewrite H2.
  apply Forall_forall. intros tx Htx.
  assert (firstSeen tx ∈ clk <$> seq t (length addressData)) as Hin.
  { rewrite <- H4. apply list_elem_of_fmap. by exists tx. }
  apply list_elem_of_fmap in Hin as (i & Hi & Hseq).
  apply elem_of_seq in Hseq. exists i. split; [lia|done].
Qed.

Lemma scanPool_observes w (clk : nat → Date) (d : MempoolResult) s p :
  ∃ txs, observes s (scanPool w clk d s p) txs
         ∧ (λ tx, (poolType tx, base tx)) <$> txs
           = (λ e, (p, withNonce e.2 e.1)) <$> walletEntries w d p.
Proof.
  unfold scanPool, walletEntries.
  destruct (poolOf d p) as [poolData|]; simpl;
    [destruct (Object_get poolData w) as [addressData|]; simpl|];
    try (exists []; split; [apply observes_refl|done]).
  pose proof (extract_spec clk (tick s) addressData p) as (H2 & H3 & _).
  cbv zeta in *.
  destruct (extractTransactionsFromAddress clk (tick s) addressData p)
    as [txs tick']. simpl in *.
  exists txs. split; [|done].
  pose proof (visit_fold_observes clk txs
                {| state := state s; tick := tick';
                   allWalletTransactions := allWalletTransactions s;
                   newTransactions := newTransactions s |}) as Hobs.
  destruct Hobs as (Ha & Hs & Ht & Hn). simpl in *.
  unfold observes. split_and!; [done..|lia|done].
Qed.

(** A cycle that fetched the pool content visits the wallet's pending
    entries, then its queued ones. *)
Lemma checkMempool_observes w (c : Cycle) st (d : MempoolResult) :
  fetched c = Some d →
  let out := checkMempool w c st in
  ∃ s, observes {| state := st; tick := 0;
                   allWalletTransactions := []; newTransactions := [] |}
                s (cr_allWalletTransactions out.1)
       ∧ out = ({| cr_newTransactions := newTransactions s;
                   cr_allWalletTransactions := allWalletTransactions s |},
                state s)
       ∧ (λ tx, (poolType tx, base tx)) <$> cr_allWalletTransactions out.1
         = ((λ e, (Pending, withNonce e.2 e.1)) <$> walletEntries w d Pending)
           ++ ((λ e, (Queued, withNonce e.2 e.1)) <$> walletEntries w d Queued).
Proof.
  intros Hc. unfold checkMempool. rewrite Hc. simpl.
  set (s0 := {| state := st; tick := 0;
                allWalletTransactions := []; newTransactions := [] |}).
  destruct (scanPool_observes w (clock c) d s0 Pending) as (txs1 & Ho1 & He1).
  destruct (scanPool_observes w (clock c) d
              (scanPool w (clock c) d s0 Pending) Queued)
    as (txs2 & Ho2 & He2).
  pose proof (observes_trans _ _ _ _ _ Ho1 Ho2) as Ho.
  exists (scanPool w (clock c) d (scanPool w (clock c) d s0 Pending) Queued).
  destruct Ho as (Ha & Hrest). simpl in Ha.
  rewrite Ha. split_and!; [|done|].
  - split; [done|done].
  - by rewrite fmap_app, He1, He2.
Qed.

Lemma checkMempool_seen_new w (c : Cycle) st :
  let out := checkMempool w c st in
  seenTransactions out.2
  = seenTransactions st ∪ list_to_set (hash <$> cr_allWalletTransactions out.1)
  ∧ cr_newTransactions out.1 `sublist_of` cr_allWalletTransactions out.1
  ∧ ∀ h, h ∈ newHashes out.1
         ↔ h ∈ hash <$> cr_allWalletTransactions out.1
           ∧ h ∉ seenTransactions st.
Proof.
  destruct (fetched c) as [d|] eqn:Hc.
  - destruct (checkMempool_observes w c st d Hc)
      as (s & (_ & Hseen & _ & new & Hnew & Hsub & Hiff) & Hout & _).
    cbv zeta in *. rewrite Hout in *. simpl in *. unfold newHashes; simpl.
    rewrite Hnew. done.
  - unfold checkMempool. rewrite Hc. simpl. rewrite union_empty_r_L.
    split_and!; [done..|]. intros h. unfold newHashes; simpl.
    rewrite elem_of_nil. tauto.
Qed.

Lemma stampedBefore_mono (clk : nat → Date) n n' tx :
  n ≤ n' → stampedBefore clk n tx → stampedBefore clk n' tx.
Proof. intros Hn (i & Hi & Ht). exists i. split; [lia|done]. Qed.

Lemma visit_tick (clk : nat → Date) s tx : tick s ≤ tick (visit clk s tx).
Proof. unfold visit. case_decide; simpl; lia. Qed.

Lemma visit_timed (clk : nat → Date) s tx :
  timed clk s → stampedBefore clk (tick s) tx → timed clk (visit clk s tx).
Proof.
  unfold timed, visit. intros Hs (i & Hi & Hst).
  case_decide as Hseen; simpl; [done|].
  apply Forall_app. split.
  - eapply Forall_impl; [exact Hs|]. simpl.
    intros tx0 [(i0 & k0 & Hik & Hf & Hl) Hin]. split.
    + exists i0, k0. split_and!; [done..|]. simpl.
      rewrite lookup_insert_ne; [done|]. by intros Heq; rewrite Heq in Hseen.
    + by apply elem_of_union_r.
  - apply Forall_singleton. split.
    + exists i, (tick s). split_and!; [done..|]. simpl.
      apply lookup_insert_eq.
    + apply elem_of_union_l. by apply elem_of_singleton.
Qed.

Lemma visit_fold_timed (clk : nat → Date) txs s :
  timed clk s → Forall (stampedBefore clk (tick s)) txs →
  timed clk (fold_left (visit clk) txs s).
Proof.
  revert s. induction txs as [|tx txs IH]; intros s Hs Htxs; simpl; [done|].
  apply Forall_cons in Htxs as [Htx Htxs]. apply IH.
  - by apply visit_timed.
  - eapply Forall_impl; [exact Htxs|]. intros tx0.
    apply stampedBefore_mono, visit_tick.
Qed.

Lemma scanPool_timed w (clk : nat → Date) (d : MempoolResult) s p :
  timed clk s → timed clk (scanPool w clk d s p).
Proof.
  intros Hs. unfold scanPool.
  destruct (poolOf d p) as [poolData|]; [|done].
  destruct (Object_get poolData w) as [addressData|]; [|done].
  pose proof (extract_stamped clk (tick s) addressData p) as Hst.
  cbv zeta in Hst.
  destruct (extractTransactionsFromAddress clk (tick s) addressData p)
    as [txs tick']. simpl in Hst.
  by apply visit_fold_timed.
Qed.

Lemma checkMempool_recorded w (c : Cycle) st :
  Forall (recorded (clock c) (checkMempool w c st).2)
         (cr_newTransactions (checkMempool w c st).1).
Proof.
  unfold checkMempool. destruct (fetched c) as [d|]; simpl; [|constructor].
  set (s0 := {| state := st; tick := 0;
                allWalletTransactions := []; newTransactions := [] |}).
  assert (timed (clock c) s0) as H0 by constructor.
  apply (scanPool_timed w _ d _ Pending) in H0.
  apply (scanPool_timed w _ d _ Queued) in H0.
  eapply Forall_impl; [exact H0|]. by intros tx [? _].
Qed.

Lemma grows_subseteq st st' (added : list string) :
  grows st st' added → seenTransactions st ⊆ seenTransactions st'.
Proof. intros (_ & _ & -> & _). apply union_subseteq_l. Qed.

Lemma consistent_dom (st : MonitorState) :
  consistent st → dom (firstSeenTimes st) = seenTransactions st.
Proof.
  intros Hc. apply set_eq; intros h. by rewrite elem_of_dom, (Hc h).
Qed.

End ObservationFacts.

(** ** The live monitor: further results *)

Section MonitorFurther.
Import Monitor Tracking Observation.

(** X1.  The seen set never loses a hash: whatever the state before and
    whatever the fetches give, every hash seen before a sequence of
    cycles is seen after it. *)
Theorem seen_only_grows (w : string) (cycles : list Cycle) (st : MonitorState) :
  seenTransactions st ⊆ seenTransactions (run w cycles st).2.
Proof. eapply grows_subseteq, run_grows. Qed.

(** X2.  After a cycle the seen set is the seen set of before together
    with the hashes of all the wallet's transactions the cycle found in
    the pool. *)
Theorem cycle_marks_all_wallet_hashes (w : string) (c : Cycle)
    (st : MonitorState) :
  seenTransactions (checkMempool w c st).2
  = seenTransactions st
    ∪ list_to_set (hash <$> cr_allWalletTransactions (checkMempool w c st).1).
Proof. apply (checkMempool_seen_new w c st). Qed.

(** X3.  The transactions a cycle reports as new are taken, in order,
    from the wallet transactions it found, and their hashes are exactly
    the hashes found that had not been seen before the cycle. *)
Theorem new_are_the_unseen (w : string) (c : Cycle) (st : MonitorState) :
  cr_newTransactions (checkMempool w c st).1
    `sublist_of` cr_allWalletTransactions (checkMempool w c st).1
  ∧ ∀ h, h ∈ newHashes (checkMempool w c st).1
         ↔ h ∈ hash <$> cr_allWalletTransactions (checkMempool w c st).1
           ∧ h ∉ seenTransactions st.
Proof. apply (checkMempool_seen_new w c st). Qed.

(** X4.  A cycle whose fetch succeeds lists as wallet transactions the
    entries stored under the wallet's address in the pending sub-pool,
    then those in the queued sub-pool, each with its pool type and with
    the object key as its nonce; an absent sub-pool or an absent address
    key contributes nothing. *)
Theorem all_wallet_transactions_content (w : string) (c : Cycle)
    (st : MonitorState) (d : MempoolResult) :
  fetched c = Some d →
  (λ tx, (poolType tx, base tx))
    <$> cr_allWalletTransactions (checkMempool w c st).1
  = ((λ e, (Pending, withNonce e.2 e.1)) <$> walletEntries w d Pending)
    ++ ((λ e, (Queued, withNonce e.2 e.1)) <$> walletEntries w d Queued).
Proof.
  intros Hc. by destruct (checkMempool_observes w c st d Hc) as (s & _ & _ & ?).
Qed.

(** [all_wallet_transactions_content] on a snapshot without a pending
    sub-pool and with one queued transaction of the wallet. *)
Lemma all_wallet_transactions_content_witness :
  fetched queuedOnlyCycle = Some (Comparator.data Claims.onlyQueued)
  ∧ (λ tx, (poolType tx, tx_nonce (base tx), hash tx))
      <$> cr_allWalletTransactions
            (checkMempool wallet queuedOnlyCycle initialState).1
    = [(Queued, "5", "0xaa")].
Proof.
  split; [reflexivity|].
  pose proof (all_wallet_transactions_content wallet queuedOnlyCycle
                initialState (Comparator.data Claims.onlyQueued) eq_refl) as H.
  apply (f_equal (fmap (λ e : PoolType * MempoolTransaction,
                          (e.1, tx_nonce e.2, tx_hash e.2)))) in H.
  rewrite <- list_fmap_compose in H. exact H.
Defined.

(** X5.  Every transaction a cycle reports as new has an entry in the
    first-seen map, and that entry is a clock reading made after the
    reading that stamped the reported record; so under a clock that does
    not run backwards the recorded instant is not earlier than the
    record's own [firstSeen]. *)
Theorem new_transactions_are_recorded (w : string) (c : Cycle)
    (st : MonitorState) :
  Forall (recorded (clock c) (checkMempool w c st).2)
         (cr_newTransactions (checkMempool w c st).1)
  ∧ ((∀ i j, i ≤ j → (clock c i ≤ clock c j)%Z) →
     Forall (λ tx, ∃ t, firstSeenTimes (checkMempool w c st).2 !! hash tx
                        = Some t
                        ∧ (firstSeen tx ≤ t)%Z)
            (cr_newTransactions (checkMempool w c st).1)).
Proof.
  split; [apply checkMempool_recorded|]. intros Hmono.
  eapply Forall_impl; [apply checkMempool_recorded|]. simpl.
  intros tx (i & k & Hik & Hf & Hl). exists (clock c k).
  split; [done|]. rewrite Hf. apply Hmono. lia.
Qed.

(** [new_transactions_are_recorded] on the first of the two cycles. *)
Lemma new_transactions_are_recorded_witness :
  (∀ i j, i ≤ j → (clockFrom 1000 i ≤ clockFrom 1000 j)%Z)
  ∧ Forall (λ tx, ∃ t,
              firstSeenTimes
                (checkMempool wallet (sees [("1", "0x1"); ("2", "0x2")] [] 1000)
                   initialState).2 !! hash tx = Some t
              ∧ (firstSeen tx ≤ t)%Z)
           (cr_newTransactions
              (checkMempool wallet (sees [("1", "0x1"); ("2", "0x2")] [] 1000)
                 initialState).1).
Proof.
  assert (∀ i j, i ≤ j → (clockFrom 1000 i ≤ clockFrom 1000 j)%Z) as Hmono
    by (unfold clockFrom; intros; lia).
  split; [done|].
  by apply (proj2 (new_transactions_are_recorded wallet
                     (sees [("1", "0x1"); ("2", "0x2")] [] 1000) initialState)).
Defined.

(** X6.  At any point of a run started from the empty state, the size of
    the seen set, the size of the first-seen map and the number of
    transactions reported as new so far are the same number. *)
Theorem seen_count_is_new_count (w : string) (cycles : list Cycle) :
  size (seenTransactions (run w cycles initialState).2)
  = length (mjoin (newHashes <$> (run w cycles initialState).1))
  ∧ size (firstSeenTimes (run w cycles initialState).2)
    = length (mjoin (newHashes <$> (run w cycles initialState).1)).
Proof.
  destruct (run_grows w cycles initialState) as (Hnd & _ & Hseen & _).
  assert (size (seenTransactions (run w cycles initialState).2)
          = length (mjoin (newHashes <$> (run w cycles initialState).1))) as Hs.
  { rewrite Hseen. simpl. rewrite union_empty_l_L.
    by apply size_list_to_set. }
  split; [done|]. rewrite <- Hs, <- size_dom.
  by rewrite (consistent_dom _ (run_consistent w cycles)).
Qed.

End MonitorFurther.

(** ** The differ: further results *)

Section DifferFurther.
Import Comparator Claims.

Implicit Types (l : list TransactionInfo) (m : gmap string TransactionInfo).

Lemma filter_all {A} (P : A → Prop) `{!∀ x, Decision (P x)} (l : list A) :
  (∀ x, x ∈ l → P x) → filter P l = l.
Proof.
  induction l as [|x l IH]; intros HP; [done|].
  rewrite filter_cons_True by (apply HP; left).
  f_equal. apply IH. intros y Hy. apply HP. by right.
Qed.

Lemma filter_none {A} (P : A → Prop) `{!∀ x, Decision (P x)} (l : list A) :
  (∀ x, x ∈ l → ¬ P x) → filter P l = [].
Proof.
  induction l as [|x l IH]; intros HP; [done|].
  rewrite filter_cons_False by (apply HP; left).
  apply IH. intros y Hy. apply HP. by right.
Qed.

(** The four tests of the first pass split any sequence of records. *)
Lemma first_pass_filters_permutation m l :
  filter (λ tx, otherPool m tx = None) l
  ++ filter (λ tx, otherPool m tx = Some (ti_poolType tx)) l
  ++ filter (λ tx, ti_poolType tx = Pending ∧ otherPool m tx = Some Queued) l
  ++ filter (λ tx, ti_poolType tx = Queued ∧ otherPool m tx = Some Pending) l
  ≡ₚ l.
Proof.
  induction l as [|tx l IH]; [done|].
  rewrite !filter_cons.
  set (D := filter (λ tx, otherPool m tx = None) l) in *.
  set (S := filter (λ tx, otherPool m tx = Some (ti_poolType tx)) l) in *.
  set (Q := filter (λ tx, ti_poolType tx = Pending
                          ∧ otherPool m tx = Some Queued) l) in *.
  set (P := filter (λ tx, ti_poolType tx = Queued
                          ∧ otherPool m tx = Some Pending) l) in *.
  transitivity (tx :: (D ++ S ++ Q ++ P)); [|by constructor].
  destruct (otherPool m tx) as [[]|], (ti_poolType tx);
    repeat (case_decide; try (exfalso; intuition congruence));
    rewrite <- ?app_comm_cons, ?Permutation_middle; done.
Qed.

(** X7.  Whatever the two snapshots, the four arrays filled from the
    first snapshot hold, between them, every record extracted from it
    exactly once, each array in extraction order; so the four totals of
    the summary add up to the number of records of the first snapshot,
    and the total of new records is at most the number of records of the
    second. *)
Theorem first_pass_splits_the_records (a b : MempoolFile) :
  let r := compareFiles a b in
  disappearedTransactions r ++ stillPending r ++ movedToQueued r
    ++ movedToPending r
  ≡ₚ extractAllTransactions (data a)
  ∧ disappearedTransactions r `sublist_of` extractAllTransactions (data a)
  ∧ stillPending r `sublist_of` extractAllTransactions (data a)
  ∧ movedToQueued r `sublist_of` extractAllTransactions (data a)
  ∧ movedToPending r `sublist_of` extractAllTransactions (data a)
  ∧ newTransactions r `sublist_of` extractAllTransactions (data b)
  ∧ totalDisappeared (summary r) + totalStillPending (summary r)
    + totalMovedToQueued (summary r) + totalMovedToPending (summary r)
    = length (extractAllTransactions (data a))
  ∧ totalNew (summary r) ≤ length (extractAllTransactions (data b)).
Proof.
  intros r.
  assert (disappearedTransactions r ++ stillPending r ++ movedToQueued r
            ++ movedToPending r ≡ₚ extractAllTransactions (data a)) as Hperm.
  { subst r. pose proof (compareFiles_filters a b) as Hf. cbv zeta in Hf.
    destruct Hf as (-> & -> & -> & -> & _).
    apply first_pass_filters_permutation. }
  pose proof (compareFiles_filters a b) as Hf. cbv zeta in Hf.
  destruct Hf as (HD & HS & HQ & HP & HN). fold r in HD, HS, HQ, HP, HN.
  split_and!; [done|..].
  - rewrite HD. apply sublist_filter.
  - rewrite HS. apply sublist_filter.
  - rewrite HQ. apply sublist_filter.
  - rewrite HP. apply sublist_filter.
  - rewrite HN. apply sublist_filter.
  - apply Permutation_length in Hperm. rewrite !length_app in Hperm.
    subst r. simpl in *. lia.
  - subst r. change (totalNew (summary (compareFiles a b)))
      with (length (newTransactions (compareFiles a b))).
    rewrite HN. apply length_filter.
Qed.

(** X8.  Comparing a snapshot with a snapshot of the same content, no
    hash of which is in both sub-pools, lists every record as still in
    its pool and nothing in the four other categories. *)
Theorem same_content_changes_nothing (a b : MempoolFile) :
  data b = data a → pool_consistent (data a) →
  let r := compareFiles a b in
  stillPending r = extractAllTransactions (data a)
  ∧ disappearedTransactions r = [] ∧ newTransactions r = []
  ∧ movedToQueued r = [] ∧ movedToPending r = [].
Proof.
  intros Hab Hc r. subst r.
  pose proof (compareFiles_filters a b) as Hf. cbv zeta in Hf.
  destruct Hf as (-> & -> & -> & -> & ->). rewrite Hab.
  set (F := extractAllTransactions (data a)).
  assert (∀ tx, tx ∈ F → otherPool (txMap F) tx = Some (ti_poolType tx)) as Hp.
  { intros tx Hin.
    change (poolIn F (ti_hash tx) = Some (ti_poolType tx)).
    apply (consistent_inPool _ _ _ Hc). by exists tx. }
  split_and!.
  - by apply filter_all.
  - apply filter_none. intros tx Hin. by rewrite (Hp tx Hin).
  - apply filter_none. intros tx Hin Hn.
    specialize (Hp tx Hin). unfold otherPool in Hp. by rewrite Hn in Hp.
  - apply filter_none. intros tx Hin [Hx Hy].
    rewrite (Hp tx Hin) in Hy. congruence.
  - apply filter_none. intros tx Hin [Hx Hy].
    rewrite (Hp tx Hin) in Hy. congruence.
Qed.

(** [same_content_changes_nothing] on two captures of one pending
    transaction. *)
Lemma same_content_changes_nothing_witness :
  data onlyPending = data onlyPending
  ∧ pool_consistent (data onlyPending)
  ∧ stillPending (compareFiles onlyPending onlyPending)
    = extractAllTransactions (data onlyPending)
  ∧ newTransactions (compareFiles onlyPending onlyPending) = [].
Proof.
  assert (pool_consistent (data onlyPending)) as Hc
    by (apply hash_unique_consistent; unfold hash_unique; simpl;
        apply NoDup_singleton).
  destruct (same_content_changes_nothing onlyPending onlyPending eq_refl Hc)
    as (? & _ & ? & _).
  done.
Defined.

(** X9.  Against a second snapshot without transactions, every record of
    the first snapshot is disappeared; against a first snapshot without
    transactions, every record of the second is new; in both cases the
    other categories are empty. *)
Theorem empty_snapshot_diff (a b : MempoolFile) :
  (extractAllTransactions (data b) = [] →
   let r := compareFiles a b in
   disappearedTransactions r = extractAllTransactions (data a)
   ∧ newTransactions r = [] ∧ stillPending r = []
   ∧ movedToQueued r = [] ∧ movedToPending r = [])
  ∧ (extractAllTransactions (data a) = [] →
     let r := compareFiles a b in
     newTransactions r = extractAllTransactions (data b)
     ∧ disappearedTransactions r = [] ∧ stillPending r = []
     ∧ movedToQueued r = [] ∧ movedToPending r = []).
Proof.
  split; intros He r; subst r;
    pose proof (compareFiles_filters a b) as Hf; cbv zeta in Hf;
    destruct Hf as (-> & -> & -> & -> & ->); rewrite He.
  - split_and!; [|done|..].
    + by apply filter_all.
    + by apply filter_none.
    + apply filter_none. by intros tx _ [_ ?].
    + apply filter_none. by intros tx _ [_ ?].
  - split_and!; [|done..]. by apply filter_all.
Qed.

(** [empty_snapshot_diff] on a pending transaction and an empty pool. *)
Lemma empty_snapshot_diff_witness :
  extractAllTransactions (data emptyPool) = []
  ∧ disappearedTransactions (compareFiles onlyPending emptyPool)
    = extractAllTransactions (data onlyPending)
  ∧ newTransactions (compareFiles emptyPool onlyPending)
    = extractAllTransactions (data onlyPending).
Proof.
  split_and!; [reflexivity|..].
  - by destruct (proj1 (empty_snapshot_diff onlyPending emptyPool) eq_refl).
  - by destruct (proj2 (empty_snapshot_diff emptyPool onlyPending) eq_refl).
Defined.

End DifferFurther.

(** ** The elapsed-time display *)

Section ElapsedResults.
Import Elapsed.

(** One hour, two minutes and five seconds. *)
Example getDuration_sample : getDuration 3726000 1000 = "1h 2m 5s".
Proof. by vm_compute. Qed.

(** X10.  Whatever the two clock values, the hours, minutes and seconds
    that [getDuration] shows add up to the whole number of seconds
    elapsed; hours are shown only when positive, with minutes and seconds
    between 0 and 59; without hours, minutes are shown only when
    positive; the seconds shown alone are below 60. *)
Theorem shown_duration_adds_up (duration : Z) :
  totalSeconds (parts duration) = (duration / 1000)%Z
  ∧ match parts duration with
    | HoursMinutesSeconds h m s =>
        (0 < h ∧ 0 ≤ m < 60 ∧ 0 ≤ s < 60)%Z
    | MinutesSeconds m s => (0 < m < 60 ∧ 0 ≤ s < 60)%Z
    | SecondsOnly s => (s < 60)%Z
    end.
Proof.
  unfold parts. cbv zeta.
  set (seconds := (duration / 1000)%Z).
  set (minutes := (seconds / 60)%Z).
  set (hours := (minutes / 60)%Z).
  pose proof (Z.div_mod seconds 60 ltac:(lia)) as Hs.
  pose proof (Z.mod_pos_bound seconds 60 ltac:(lia)) as Hsb.
  pose proof (Z.div_mod minutes 60 ltac:(lia)) as Hm.
  pose proof (Z.mod_pos_bound minutes 60 ltac:(lia)) as Hmb.
  fold minutes in Hs. fold hours in Hm.
  destruct (decide (0 < hours)%Z) as [Hh|Hh];
    [|destruct (decide (0 < minutes)%Z) as [Hmin|Hmin]]; simpl.
  - rewrite !Z.rem_mod_nonneg by lia. lia.
  - rewrite !Z.rem_mod_nonneg by lia. lia.
  - lia.
Qed.

End ElapsedResults.

(** ** The reaction to new transactions *)

Section SenderResults.
Import Monitor Tracking Sender.

Variable toLowerCase : string → string.
Variable parseEther : string → option Z.





End SenderResults.

Section SenderWitnesses.
Import Monitor Tracking Sender.



End SenderWitnesses.

(** ** The comparator's command line *)

Section CompareCliResults.
Import Comparator CompareCli.

Lemma isFlag_elem arg long short :
  isFlag arg long short = true → arg = long ∨ arg = short.
Proof. unfold isFlag. by intros ?%bool_decide_eq_true. Qed.

Lemma takenFrom_initial (pool : list string) : takenFrom pool initialArgs.
Proof.
  unfold takenFrom, initialArgs; simpl.
  split_and!; try done. intros d [= <-]. by left.
Qed.

Ltac taken_step Hacc :=
  destruct Hacc as (H1 & H2 & H3 & H4 & H5);
  unfold takenFrom; simpl; split_and!; try done; intros ? [= <-]; auto.

(** The loop keeps its variables among the texts it has read. *)
Lemma parseLoop_takenFrom (pool : list string) (n : nat) :
  ∀ (args : list string) (acc a : Args),
    length args ≤ n → (∀ x, x ∈ args → x ∈ pool) → takenFrom pool acc →
    parseLoop args acc = Some a → takenFrom pool a.
Proof.
  induction n as [|n IH]; intros args acc a Hlen Hsub Hacc Hparse.
  { destruct args; [|simpl in Hlen; lia]. by injection Hparse as <-. }
  destruct args as [|arg rest]; [by injection Hparse as <-|].
  assert (∀ x, x ∈ rest → x ∈ pool) as Hrest
    by (intros x Hx; apply Hsub; by right).
  simpl in Hparse, Hlen.
  repeat (destruct (isFlag arg _ _) eqn:? in Hparse;
          [destruct rest as [|v rest'];
           [injection Hparse as <-; taken_step Hacc
           |eapply (IH rest'); [simpl in Hlen; lia| |..|exact Hparse];
            [intros x Hx; apply Hrest; by right
            |assert (v ∈ pool) by (apply Hrest; left);
             taken_step Hacc]]|]).
  destruct (isFlag arg "--list" "-l") eqn:Hl in Hparse.
  { eapply (IH rest); [lia|done| |exact Hparse].
    apply isFlag_elem in Hl.
    assert ("--list" ∈ pool ∨ "-l" ∈ pool) as Hflag.
    { destruct Hl as [<-|<-]; [left|right]; apply Hsub; left. }
    destruct Hacc as (H1 & H2 & H3 & H4 & H5).
    unfold takenFrom; simpl. split_and!; done. }
  destruct (isFlag arg "--help" "-h") eqn:Hh in Hparse; [done|].
  eapply (IH rest); [lia|done..].
Qed.

(** The loop exits for the help text only on reading the help flag. *)
Lemma parseLoop_help (n : nat) :
  ∀ (args : list string) (acc : Args),
    length args ≤ n → parseLoop args acc = None →
    "--help" ∈ args ∨ "-h" ∈ args.
Proof.
  induction n as [|n IH]; intros args acc Hlen Hparse.
  { destruct args; [done|simpl in Hlen; lia]. }
  destruct args as [|arg rest]; [done|].
  assert (("--help" ∈ rest ∨ "-h" ∈ rest) → "--help" ∈ arg :: rest ∨ "-h" ∈ arg :: rest)
    as Hweak by (intros [?|?]; [left|right]; by right).
  simpl in Hparse, Hlen.
  repeat (destruct (isFlag arg _ _) eqn:? in Hparse;
          [destruct rest as [|v rest']; [done|];
           apply Hweak;
           destruct (IH rest' _ ltac:(simpl in Hlen; lia) Hparse);
           [left|right]; by right|]).
  destruct (isFlag arg "--list" "-l") eqn:Hl in Hparse.
  { apply Hweak. eapply (IH rest); [lia|exact Hparse]. }
  destruct (isFlag arg "--help" "-h") eqn:Hh in Hparse.
  { apply isFlag_elem in Hh as [->| ->]; [left|right]; left. }
  apply Hweak. eapply (IH rest); [lia|exact Hparse].
Qed.

(** Arguments that are no flags leave the variables alone. *)
Lemma parseLoop_no_flags (args : list string) (acc : Args) :
  (∀ x, x ∈ args → x ∉ flags) → parseLoop args acc = Some acc.
Proof.
  induction args as [|arg rest IH]; intros Hno; [done|].
  assert (arg ∉ flags) as Harg by (apply Hno; left).
  simpl.
  repeat (destruct (isFlag arg _ _) eqn:Hf;
          [apply isFlag_elem in Hf; exfalso; apply Harg; unfold flags;
           destruct Hf as [->| ->]; set_solver|clear Hf]).
  apply IH. intros x Hx. apply Hno. by right.
Qed.

(** X13.  [parseArgs] makes up nothing: the file names and the output
    file it returns are among the arguments, the directory is the
    default one or among the arguments, and listing is requested only if
    its flag is among the arguments; it exits for the help text only if
    the help flag is among the arguments; and arguments among which is
    no flag give the initial values. *)
Theorem parseArgs_takes_from_arguments (args : list string) :
  (∀ a, parseArgs args = Some a → takenFrom args a)
  ∧ (parseArgs args = None → "--help" ∈ args ∨ "-h" ∈ args)
  ∧ ((∀ x, x ∈ args → x ∉ flags) → parseArgs args = Some initialArgs).
Proof.
  unfold parseArgs. split_and!.
  - intros a. apply (parseLoop_takenFrom args (length args)); [done..|].
    apply takenFrom_initial.
  - by apply (parseLoop_help (length args)).
  - apply parseLoop_no_flags.
Qed.

(** [parseArgs_takes_from_arguments] on two file flags and on two plain
    words. *)
Lemma parseArgs_takes_from_arguments_witness :
  parseArgs ["-f"; "a.json"; "--second"; "b.json"]
  = Some {| firstFile := Some "a.json"; secondFile := Some "b.json";
            resultDir := Some "./result"; outputFile := None;
            listFiles := false |}
  ∧ takenFrom ["-f"; "a.json"; "--second"; "b.json"]
      {| firstFile := Some "a.json"; secondFile := Some "b.json";
         resultDir := Some "./result"; outputFile := None;
         listFiles := false |}
  ∧ parseArgs ["a.json"; "b.json"] = Some initialArgs.
Proof.
  split_and!; [reflexivity| |].
  - by apply (proj1 (parseArgs_takes_from_arguments
                       ["-f"; "a.json"; "--second"; "b.json"])).
  - apply (proj2 (proj2 (parseArgs_takes_from_arguments ["a.json"; "b.json"]))).
    intros x Hx. unfold flags. set_solver.
Defined.

(** X14.  [main] compares only two files named among the arguments by
    non-empty names, both existing and both loaded, and only when
    neither the help text nor the listing was asked for; the result is
    the comparison of the two loaded files, and it is saved only under a
    non-empty name found among the arguments. *)
Theorem main_compares_named_files (existsSync : string → bool)
    (load : string → option MempoolFile) (args : list string)
    (result : ComparisonResult) (savedTo : option string) :
  main existsSync load args = Compared result savedTo →
  ∃ a first second firstMempool secondMempool,
    parseArgs args = Some a ∧ listFiles a = false
    ∧ firstFile a = Some first ∧ secondFile a = Some second
    ∧ first ∈ args ∧ second ∈ args ∧ first ≠ "" ∧ second ≠ ""
    ∧ existsSync first = true ∧ existsSync second = true
    ∧ load first = Some firstMempool ∧ load second = Some secondMempool
    ∧ result = compareFiles firstMempool secondMempool
    ∧ ∀ o, savedTo = Some o → outputFile a = Some o ∧ o ∈ args ∧ o ≠ "".
Proof.
  unfold main. destruct (parseArgs args) as [a|] eqn:Hparse; [|done].
  destruct (parseLoop_takenFrom args (length args) args initialArgs a
              (le_n _) (λ x Hx, Hx) (takenFrom_initial args) Hparse)
    as (Hf & Hs & _ & Ho & _).
  destruct (listFiles a) eqn:Hlist; [done|].
  destruct (firstFile a) as [first|] eqn:Hfirst; [|done].
  destruct (secondFile a) as [second|] eqn:Hsecond; [|done].
  case_bool_decide as Hempty; [done|].
  destruct (existsSync first) eqn:Hef; [|done].
  destruct (existsSync second) eqn:Hes; [|done]. simpl.
  destruct (load first) as [x|] eqn:Hlf; [|done].
  destruct (load second) as [y|] eqn:Hls; [|done].
  intros Heq. injection Heq as Hres Hsave.
  exists a, first, second, x, y.
  split_and!; try done.
  - by apply Hf.
  - by apply Hs.
  - intros ->. apply Hempty. by left.
  - intros ->. apply Hempty. by right.
  - intros o Ho'. rewrite Ho' in Hsave.
    destruct (outputFile a) as [o'|] eqn:Hout; [|done].
    case_bool_decide; [done|]. injection Hsave as ->.
    split_and!; [done| |done]. by apply Ho.
Qed.

(** [main_compares_named_files] on the sample command line. *)
Lemma main_compares_named_files_witness :
  main sampleExists sampleLoad sampleArgs
  = Compared (compareFiles Claims.onlyPending Claims.onlyQueued)
             (Some "diff.json")
  ∧ ∃ first second,
      first ∈ sampleArgs ∧ second ∈ sampleArgs
      ∧ sampleExists first = true ∧ sampleExists second = true
      ∧ sampleLoad first = Some Claims.onlyPending
      ∧ sampleLoad second = Some Claims.onlyQueued.
Proof.
  assert (main sampleExists sampleLoad sampleArgs
          = Compared (compareFiles Claims.onlyPending Claims.onlyQueued)
                     (Some "diff.json")) as Hmain by reflexivity.
  split; [exact Hmain|].
  destruct (main_compares_named_files _ _ _ _ _ Hmain)
    as (a & first & second & x & y & Hparse & _ & Hf & Hs & Hfa & Hsa
        & _ & _ & Hef & Hes & Hlf & Hls & _).
  exists first, second.
  injection Hparse as <-. injection Hf as <-. injection Hs as <-.
  split_and!; done.
Defined.

End CompareCliResults.

(** ** The collector's file and the listings *)

Section CollectorFileResults.
Import Stdlib.Strings.Ascii.
Import CollectorFile.

Lemma prefix_append (p s : string) : String.prefix p (p +:+ s) = true.
Proof.
  induction p as [|c p IH]; simpl; [by destruct s|].
  by destruct (ascii_dec c c).
Qed.

Lemma length_append (s t : string) :
  String.length (s +:+ t) = String.length s + String.length t.
Proof. induction s as [|c s IH]; simpl; [done|by rewrite IH]. Qed.

Lemma substring_whole (s : string) : String.substring 0 (String.length s) s = s.
Proof. induction s as [|c s IH]; simpl; [done|by rewrite IH]. Qed.

Lemma substring_append (s t : string) :
  String.substring (String.length s) (String.length t) (s +:+ t) = t.
Proof. induction s as [|c s IH]; simpl; [apply substring_whole|done]. Qed.

Lemma endsWith_append (s p : string) : endsWith (s +:+ p) p = true.
Proof.
  unfold endsWith. rewrite length_append.
  replace (String.length s + String.length p - String.length p)
    with (String.length s) by lia.
  rewrite substring_append, String.eqb_refl, andb_true_r.
  apply Nat.leb_le. lia.
Qed.

Lemma chars_append (s t : string) : chars (s +:+ t) = chars s ++ chars t.
Proof. unfold chars. induction s as [|c s IH]; simpl; [done|by rewrite IH]. Qed.

Lemma chars_replaceColonDot (s : string) (c : ascii) :
  c ∈ chars (replaceColonDot s) → c ≠ ":"%char ∧ c ≠ "."%char.
Proof.
  unfold chars. induction s as [|d s IH]; simpl.
  { by intros ?%elem_of_nil. }
  intros [->|Hin]%elem_of_cons; [|by apply IH].
  case_decide as Hd; [done|]. split; intros ->; apply Hd; auto.
Qed.

Lemma length_replaceColonDot (s : string) :
  String.length (replaceColonDot s) = String.length s.
Proof. induction s as [|c s IH]; simpl; [done|by rewrite IH]. Qed.

(** X15.  Whatever the text of the instant, the name of the file that
    the collector writes passes the filter of the comparator's listing
    and the filter of the collector's own listing, holds no colon, and
    holds no dot but the one of its extension. *)
Theorem collected_file_is_listed (iso : string) :
  isMempoolFile (fileName iso) = true
  ∧ isCollectedFile (fileName iso) = true
  ∧ (":"%char ∉ chars (fileName iso))
  ∧ ∃ stem, fileName iso = stem +:+ ".json"
            ∧ ("."%char ∉ chars stem)
            ∧ String.length stem = 8 + String.length iso.
Proof.
  assert (fileName iso = ("mempool-" +:+ replaceColonDot iso) +:+ ".json")
    as Hname by reflexivity.
  assert (endsWith (fileName iso) ".json" = true) as Hend
    by (rewrite Hname; apply endsWith_append).
  assert (∀ c, c ∈ chars ("mempool-" +:+ replaceColonDot iso) →
               c ≠ ":"%char ∧ c ≠ "."%char) as Hstem.
  { intros c. rewrite chars_append. intros [Hc|Hc]%elem_of_app.
    - unfold chars in Hc; simpl in Hc.
      repeat (apply elem_of_cons in Hc as [->|Hc]; [done|]).
      by apply elem_of_nil in Hc.
    - by apply (chars_replaceColonDot iso). }
  split_and!.
  - unfold isMempoolFile. rewrite Hend, andb_true_r.
    unfold startsWith, fileName. apply prefix_append.
  - done.
  - rewrite Hname, chars_append. intros [Hc|Hc]%elem_of_app.
    + by destruct (Hstem _ Hc).
    + unfold chars in Hc; simpl in Hc.
      repeat (apply elem_of_cons in Hc as [[=]|Hc]).
      by apply elem_of_nil in Hc.
  - exists ("mempool-" +:+ replaceColonDot iso). split_and!; [done| |].
    + intros Hc. by destruct (Hstem _ Hc).
    + by rewrite length_append, length_replaceColonDot.
Qed.

(** The name built from an instant in ISO form. *)
Example fileName_sample :
  fileName "2024-01-15T14:30:25.123Z" = "mempool-2024-01-15T14-30-25-123Z.json".
Proof. reflexivity. Qed.

(** X16.  In the summary that the collector saves, the total of
    transactions is the number of records that the comparator extracts
    from the saved pool content; and when the two sub-pools are objects
    with distinct keys, the total of addresses is the number of distinct
    addresses plus the number of addresses present in both sub-pools. *)
Theorem saved_summary_totals (d : MempoolResult) :
  totalTransactions (summarize d)
  = length (Comparator.extractAllTransactions d)
  ∧ (wf_object (default [] (pending d)) → wf_object (default [] (queued d)) →
     let P : gset string := list_to_set (Object_keys (default [] (pending d))) in
     let Q : gset string := list_to_set (Object_keys (default [] (queued d))) in
     totalAddresses (summarize d) = size (P ∪ Q) + size (P ∩ Q)).
Proof.
  split.
  - unfold summarize, Collector.countTransactions,
      Comparator.extractAllTransactions; simpl.
    by rewrite length_app, !extractPool_length.
  - intros Hp Hq P Q. unfold summarize; simpl.
    assert (size P = length (Object_keys (default [] (pending d)))) as <-
      by (by apply size_list_to_set).
    assert (size Q = length (Object_keys (default [] (queued d)))) as <-
      by (by apply size_list_to_set).
    rewrite size_union_alt.
    assert (size Q = size (Q ∖ P) + size (P ∩ Q)) as ->; [|lia].
    rewrite <- size_union by set_solver. f_equal.
    apply set_eq; intros x.
    rewrite elem_of_union, elem_of_difference, elem_of_intersection.
    destruct (decide (x ∈ P)); tauto.
Qed.

(** [saved_summary_totals] on the snapshot with one address in both
    sub-pools: one distinct address, counted twice. *)
Lemma saved_summary_totals_witness :
  wf_object (default [] (pending (Comparator.data Claims.bothPools)))
  ∧ wf_object (default [] (queued (Comparator.data Claims.bothPools)))
  ∧ totalAddresses (summarize (Comparator.data Claims.bothPools))
    = size (list_to_set ["0x1"] ∪ list_to_set ["0x1"] : gset string)
      + size (list_to_set ["0x1"] ∩ list_to_set ["0x1"] : gset string).
Proof.
  assert (wf_object (default [] (pending (Comparator.data Claims.bothPools))))
    as Hp by (unfold wf_object; simpl; apply NoDup_singleton).
  assert (wf_object (default [] (queued (Comparator.data Claims.bothPools))))
    as Hq by (unfold wf_object; simpl; apply NoDup_singleton).
  split_and!; [done..|].
  pose proof (proj2 (saved_summary_totals (Comparator.data Claims.bothPools))
                Hp Hq) as H.
  exact H.
Defined.

End CollectorFileResults.
